(** * Selection-state controller of vue-js-cron (core/src/components/select.ts)

    A shallow embedding of [useSet] (the membership tracker) and [useSelect]
    (the selection controller) together with the watcher that recomputes the
    derived views, followed by the properties of the specification that were
    checked against it. *)

From stdpp Require Import base numbers list strings pretty.

Local Open Scope Z_scope.

(** ** JavaScript values *)

(** Numbers, each written in one way only, so that two numbers are the
    same term exactly when the program's comparisons, which identify [+0]
    and [-0], find them equal: an integer; a finite number that is not an
    integer, [(2 * half + 1) / 2 ^ e] with its sign; an infinity; [NaN]. *)
Inductive number :=
  | Int (z : Z)
  | Frac (negative : bool) (half : N) (e : positive)
  | Inf (negative : bool)
  | NaN.

(** Items ([T]) and projected values ([V]) are JavaScript values, as the
    caller hands them over.  Objects are references: two objects are the
    same item only when they are the same reference. *)
Inductive value :=
  | VUndefined
  | VNull
  | VBool (b : bool)
  | VNum (n : number)
  | VStr (s : string)
  | VRef (addr : nat).

#[global] Instance number_eq_dec : EqDecision number.
Proof. solve_decision. Defined.

#[global] Instance value_eq_dec : EqDecision value.
Proof. solve_decision. Defined.

(** [a === b], used by [Array.prototype.indexOf]. *)
Definition strict_eq (a b : value) : bool :=
  match a, b with
  | VNum NaN, _ | _, VNum NaN => false
  | _, _ => bool_decide (a = b)
  end.

(** SameValueZero, used by [Set], [Map] and [Array.prototype.includes]. *)
Definition same_value_zero (a b : value) : bool := bool_decide (a = b).
Arguments same_value_zero : simpl never.

(** [!!v] *)
Definition truthy (v : value) : bool :=
  match v with
  | VUndefined | VNull => false
  | VBool b => b
  | VNum (Int z) => negb (z =? 0)
  | VNum (Frac _ _ _) => true
  | VNum (Inf _) => true
  | VNum NaN => false
  | VStr s => negb (bool_decide (s = EmptyString))
  | VRef _ => true
  end.

(** [V[] | V]: the shape of [selected] and of the argument of [setValues].
    [Array.isArray] holds exactly of [Many]. *)
Inductive model_value :=
  | Many (vs : list value)
  | One (v : value).

Definition isArray (m : model_value) : bool :=
  match m with Many _ => true | One _ => false end.

(** Thrown exceptions.  [TypeError] is raised by a property read on
    [undefined] or [null]; [ConfigError] is the configuration error of the
    specification; [Other] is any other exception, by name, that code of
    the caller throws. *)
Inductive error :=
  | TypeError
  | ConfigError
  | Other (name : string).

Inductive result (A : Type) :=
  | Ok (a : A)
  | Throw (e : error).
Arguments Ok {A} a.
Arguments Throw {A} e.

#[global] Instance result_ret : MRet result := @Ok.

#[global] Instance result_bind : MBind result := λ A B k r,
  match r with
  | Ok a => k a
  | Throw e => Throw e
  end.

(** ** Arrays, sets and maps of the JavaScript library *)

Fixpoint indexOf_from (l : list value) (x : value) (i : Z) : Z :=
  match l with
  | [] => -1
  | y :: l' => if strict_eq y x then i else indexOf_from l' x (i + 1)
  end.

(** [l.indexOf(x)] *)
Definition indexOf (l : list value) (x : value) : Z := indexOf_from l x 0.

(** [l.includes(x)] *)
Definition includes (l : list value) (x : value) : bool :=
  existsb (fun y => same_value_zero y x) l.

(** A [Set<T>] is the list of its elements in insertion order (the order
    [Array.from] observes). *)
Module JsSet.
Definition t := list value.

Definition empty : t := [].

Definition has (s : t) (x : value) : bool :=
  existsb (fun y => same_value_zero y x) s.

Definition add (s : t) (x : value) : t :=
  if has s x then s else s ++ [x].

(** [s.delete(x)]: the set without [x], and whether [x] was present. *)
Definition delete (s : t) (x : value) : t * bool :=
  (List.filter (fun y => negb (same_value_zero y x)) s, has s x).

Definition clear (s : t) : t := [].

Definition size (s : t) : Z := Z.of_nat (length s).
End JsSet.

(** A [Map<V, T>] is the list of its entries in insertion order; setting an
    existing key overwrites its value in place. *)
Module JsMap.
Definition t := list (value * value).

Definition empty : t := [].

Fixpoint set (m : t) (k v : value) : t :=
  match m with
  | [] => [(k, v)]
  | (k', v') :: m' =>
      if same_value_zero k' k then (k', v) :: m' else (k', v') :: set m' k v
  end.

Fixpoint lookup (m : t) (k : value) : option value :=
  match m with
  | [] => None
  | (k', v') :: m' => if same_value_zero k' k then Some v' else lookup m' k
  end.

(** [m.get(k)]: [undefined] for a missing key. *)
Definition get (m : t) (k : value) : value := default VUndefined (lookup m k).

(** [new Map(entries)] *)
Definition of_entries (es : list (value * value)) : t :=
  fold_left (fun m e => set m e.1 e.2) es empty.
End JsMap.

(** ** useSet: the membership tracker *)

(** The mutable part of a tracker: the [Set] [values] and the counter held by
    the ref [updated].  The candidate list [items] is captured by the
    closures and never changes; it is a parameter of the operations.  The
    counter is a JavaScript number that only ever grows by one from zero; it
    is kept as an integer. *)
Record SetState := {
  values : JsSet.t;
  updated : Z
}.

Module UseSet.
Definition init : SetState := {| values := JsSet.empty; updated := 0 |}.

Definition forceUpdate (st : SetState) : SetState :=
  {| values := values st; updated := updated st + 1 |}.

Definition add (items : list value) (item : value) (st : SetState) : SetState :=
  if indexOf items item =? -1 then st
  else forceUpdate {| values := JsSet.add (values st) item; updated := updated st |}.

Definition has (item : value) (st : SetState) : bool :=
  JsSet.has (values st) item.

Definition remove (item : value) (st : SetState) : SetState :=
  let '(vs, deleted) := JsSet.delete (values st) item in
  let st' := {| values := vs; updated := updated st |} in
  if deleted then forceUpdate st' else st'.

Definition clear (st : SetState) : SetState :=
  forceUpdate {| values := JsSet.clear (values st); updated := updated st |}.

Definition toggle (items : list value) (item : value) (st : SetState) : SetState :=
  if has item st then remove item st else add items item st.

Fixpoint all_selected (st : SetState) (items : list value) : bool :=
  match items with
  | [] => true
  | item :: rest =>
      if negb (JsSet.has (values st) item) then false else all_selected st rest
  end.

Definition equals (items : list value) (st : SetState) : bool :=
  if negb (Z.of_nat (length items) =? JsSet.size (values st)) then false
  else all_selected st items.
End UseSet.

(** ** useSelect: the selection controller *)

(** The part of the object store and of the runtime the controller relies
    on.  [read o k] is the result of the property read [o[k]] on a value [o]
    other than [undefined] and [null].  [show a] is the conversion to a
    string of the object at address [a], which runs the object's own
    [toString] and can throw.  [print n] is the string the runtime gives
    for a finite number.  [reactive a] tells whether a deep ref hands the
    object at [a] back as a reactive proxy of it, which is another object:
    so it is for plain objects and arrays, and not for objects that are
    frozen or marked raw, or that are proxies already.  The controller never
    writes to an item. *)
Record heap := {
  read : value → string → value;
  show : nat → result string;
  print : number → string;
  reactive : nat → bool
}.

(** [o[k]] *)
Definition get_prop (h : heap) (o : value) (k : string) : result value :=
  match o with
  | VUndefined | VNull => Throw TypeError
  | _ => Ok (read h o k)
  end.

(** [itemText] and [itemValue]: a field name or a function of the caller,
    which returns or throws. *)
Inductive projection (R : Type) :=
  | Field (name : string)
  | Fn (f : value → result R).
Arguments Field {R} name.
Arguments Fn {R} f.

Record SelectOptions := {
  o_items : list value;
  o_multiple : option bool;
  o_itemText : option (projection string);
  o_itemValue : option (projection value);
  o_cols : option Z
}.

(** What the closures of one [useSelect] call capture: the destructured
    options with their defaults, the value index and the display rows. *)
Record Select := {
  items : list value;
  cols : Z;
  multiple : bool;
  itemText : projection string;
  itemValue : projection value;
  itemMap : JsMap.t;
  itemRows : list (list value)
}.

(** The mutable state of a controller: the tracker [s], the refs [selected]
    and [selectedStr], and [watched], the value of [s.updated] for which the
    watcher last ran (kept by the reactive runtime).  [selected] is what
    the watcher assigned to the ref.  The ref is deep: reading it hands a
    value back as it was assigned only if [read_back_same] holds of it. *)
Record SelectState := {
  s : SetState;
  selected : model_value;
  selectedStr : string;
  watched : Z
}.

(** Whether a value assigned to a deep ref is read back from it as it is:
    a primitive always, an object unless the ref hands back a proxy of
    it. *)
Definition read_back_same (h : heap) (v : value) : bool :=
  match v with
  | VRef a => negb (reactive h a)
  | _ => true
  end.

Definition getValue (h : heap) (itemValue : projection value) (item : value)
  : result value :=
  match itemValue with
  | Fn f => f item
  | Field k => get_prop h item k
  end.

Definition getText (h : heap) (itemText : projection string) (item : value)
  : result value :=
  match itemText with
  | Fn f => text ← f item; mret (VStr text)
  | Field k => get_prop h item k
  end.

(** The string conversion [Array.prototype.join] applies to an element. *)
Definition to_str (h : heap) (v : value) : result string :=
  match v with
  | VUndefined | VNull => Ok EmptyString
  | VBool true => Ok "true"
  | VBool false => Ok "false"
  | VNum NaN => Ok "NaN"
  | VNum (Inf false) => Ok "Infinity"
  | VNum (Inf true) => Ok "-Infinity"
  | VNum n => Ok (print h n)
  | VStr s => Ok s
  | VRef a => show h a
  end%string.

(** [l.join(sep)] *)
Definition join (h : heap) (sep : string) (l : list value) : result string :=
  parts ← mapM (to_str h) l;
  mret (String.concat sep parts).

Fixpoint chunks (fuel : nat) (n : nat) (l : list value) : list (list value) :=
  match fuel with
  | O => []
  | S fuel' =>
      match l with
      | [] => []
      | _ => take n l :: chunks fuel' n (drop n l)
      end
  end.

(** Modelled from the spec: [splitArray], which [useSelect] imports from the
    package index and which is not part of select.ts.  The specification
    describes it as the candidate list partitioned into chunks of the
    configured column count, in the original order, and a column count of
    zero or less as a configuration error raised at construction. *)
Definition splitArray (arr : list value) (chunkSize : Z)
  : result (list (list value)) :=
  if chunkSize <=? 0 then Throw ConfigError
  else Ok (chunks (length arr) (Z.to_nat chunkSize) arr).

(** [new Map(items.map((i) => [getValue(i), i]))] *)
Definition value_index (h : heap) (itemValue : projection value)
  (items : list value) : result JsMap.t :=
  entries ← mapM (λ i, v ← getValue h itemValue i; mret (v, i)) items;
  mret (JsMap.of_entries entries).

(** [useSelect], with the imported [splitArray] as the parameter [split],
    taken as a function that returns or throws. *)
Definition useSelect_with
  (split : list value → Z → result (list (list value)))
  (h : heap) (options : SelectOptions) : result (Select * SelectState) :=
  let items := o_items options in
  let cols := default 1 (o_cols options) in
  let multiple := default false (o_multiple options) in
  let itemText := default (Field "text") (o_itemText options) in
  let itemValue := default (Field "value") (o_itemValue options) in
  let selected := if multiple then Many [] else One VNull in
  itemMap ← value_index h itemValue items;
  rows ← split items cols;
  mret ({| items := items; cols := cols; multiple := multiple;
           itemText := itemText; itemValue := itemValue;
           itemMap := itemMap; itemRows := rows |},
        {| s := UseSet.init; selected := selected; selectedStr := EmptyString;
           watched := 0 |}).

Definition useSelect (h : heap) (options : SelectOptions)
  : result (Select * SelectState) :=
  useSelect_with splitArray h options.

Definition select (u : Select) (item : value) (st : SetState) : SetState :=
  if multiple u then UseSet.toggle (items u) item st
  else UseSet.add (items u) item (UseSet.clear st).

Definition has (h : heap) (u : Select) (item : value) (st : SelectState)
  : result bool :=
  match item with
  | VNull => Ok false
  | _ =>
      value ← getValue h (itemValue u) item;
      mret (match selected st with
            | Many vs => includes vs value
            | One v => read_back_same h v && strict_eq v value
            end)
  end.

Definition setItems (u : Select) (items : list value) (st : SetState) : SetState :=
  if UseSet.equals items st then st
  else fold_left (λ st i, select u i st) items (UseSet.clear st).

Definition to_array (values : model_value) : list value :=
  match values with
  | Many vs => vs
  | One v => [v]
  end.

(** The items [setValues] passes on to [setItems]. *)
Definition resolve (u : Select) (values : model_value) : list value :=
  List.filter truthy (map (JsMap.get (itemMap u)) (to_array values)).

Definition setValues (u : Select) (values : model_value) (st : SetState) : SetState :=
  setItems u (resolve u values) st.

(** The callback of [watch(s.updated, ...)]. *)
Definition recompute (h : heap) (u : Select) (st : SelectState) : result SelectState :=
  let items := values (s st) in
  sel ← (if multiple u
         then vs ← mapM (getValue h (itemValue u)) items; mret (Many vs)
         else v ← getValue h (itemValue u) (nth 0 items VUndefined); mret (One v));
  texts ← mapM (getText h (itemText u)) items;
  str ← join h "," texts;
  mret {| s := s st; selected := sel; selectedStr := str;
          watched := watched st |}.

(** One run of the scheduler of the reactive runtime: the callback of the
    watcher runs once if [s.updated] differs from the value it last ran
    for, and not at all otherwise.  All bumps made since the previous run
    are seen together. *)
Definition flush (h : heap) (u : Select) (st : SelectState) : result SelectState :=
  if updated (s st) =? watched st then Ok st
  else
    st' ← recompute h u st;
    mret {| s := s st'; selected := selected st'; selectedStr := selectedStr st';
            watched := updated (s st) |}.

Definition truthy_model (m : model_value) : bool :=
  match m with
  | Many _ => true
  | One v => truthy v
  end.

Definition length_model (m : model_value) : Z :=
  match m with
  | Many vs => Z.of_nat (length vs)
  | One _ => 0
  end.

Definition isEmpty (u : Select) (st : SelectState) : bool :=
  if multiple u
  then negb (isArray (selected st)) || (length_model (selected st) =? 0)
  else negb (negb (truthy_model (selected st))).

(** ** Runs of a controller *)

(** The calls a client can make on the returned object that change state. *)
Inductive op :=
  | Add (item : value)
  | Remove (item : value)
  | Toggle (item : value)
  | Clear
  | SelectItem (item : value)
  | SetItems (items : list value)
  | SetValues (values : model_value).

Definition exec (u : Select) (o : op) (st : SetState) : SetState :=
  match o with
  | Add item => UseSet.add (items u) item st
  | Remove item => UseSet.remove item st
  | Toggle item => UseSet.toggle (items u) item st
  | Clear => UseSet.clear st
  | SelectItem item => select u item st
  | SetItems its => setItems u its st
  | SetValues vs => setValues u vs st
  end.

(** The calls only touch the tracker; the refs are written by the watcher. *)
Definition call (u : Select) (o : op) (st : SelectState) : SelectState :=
  {| s := exec u o (s st); selected := selected st;
     selectedStr := selectedStr st; watched := watched st |}.

Definition run (u : Select) (ops : list op) (st : SetState) : SetState :=
  fold_left (λ st o, exec u o st) ops st.

(** States of the controller built from [options]: the state after
    construction, closed under calls and under runs of the watcher. *)
Inductive reachable (h : heap) (options : SelectOptions)
  : Select → SelectState → Prop :=
  | reach_init u st :
      useSelect h options = Ok (u, st) → reachable h options u st
  | reach_call u o st :
      reachable h options u st → reachable h options u (call u o st)
  | reach_flush u st st' :
      reachable h options u st → flush h u st = Ok st' →
      reachable h options u st'.

(** The representation invariant of a tracker over the candidates [items]:
    [values] is a set, and each of its members is found by
    [items.indexOf]. *)
Definition wf (items : list value) (st : SetState) : Prop :=
  NoDup (values st) ∧ ∀ x, x ∈ values st → indexOf items x ≠ -1.

(** What holds in every reachable state: the tracker invariant, the watcher
    never ahead of the counter, the index built from the candidates, and, in
    multiple mode once the watcher is up to date, [selected] holding the
    values of the selected items in insertion order. *)
Definition consistent (h : heap) (u : Select) (st : SelectState) : Prop :=
  wf (items u) (s st)
  ∧ watched st ≤ updated (s st)
  ∧ value_index h (itemValue u) (items u) = Ok (itemMap u)
  ∧ (multiple u = true → watched st = updated (s st) →
     ∃ vs, mapM (getValue h (itemValue u)) (values (s st)) = Ok vs
           ∧ selected st = Many vs).

(** How often one call can bump the counter. *)
Definition bumps_per_select (u : Select) : Z := if multiple u then 1 else 2.

Definition bumps_bound (u : Select) (o : op) : Z :=
  match o with
  | Add _ | Remove _ | Toggle _ | Clear => 1
  | SelectItem _ => bumps_per_select u
  | SetItems its => 1 + bumps_per_select u * Z.of_nat (length its)
  | SetValues vs => 1 + bumps_per_select u * Z.of_nat (length (to_array vs))
  end.


(** ** setupSelect and RenderlessSelect: the binding to the model value *)

(** Whether [items.indexOf] finds an item. *)
Definition is_candidate (items : list value) (x : value) : bool :=
  negb (indexOf items x =? -1).

(** The callback of [watch(modelValue, ...)]: a truthy model value is handed
    to [setValues], any other is skipped.  An absent model value is
    [One VUndefined]. *)
Definition onModelValue (u : Select) (value : model_value) (st : SetState)
  : SetState :=
  if truthy_model value then setValues u value st else st.

(** [setupSelect]: the controller is built, and the model watcher, being
    [immediate], runs its callback once on the model value it starts with.
    The watcher of [s.updated] is then pending until the next [flush].  The
    other watcher [setupSelect] registers only emits [selected] and changes
    no state. *)
Definition setupSelect (h : heap) (options : SelectOptions)
  (modelValue : model_value) : result (Select * SelectState) :=
  r ← useSelect h options;
  mret (r.1, {| s := onModelValue r.1 modelValue (s r.2);
                selected := selected r.2; selectedStr := selectedStr r.2;
                watched := watched r.2 |}).

(** The props of [RenderlessSelect], with the defaults of [selectProps]
    filled in by the framework.  An absent [selection] is [None]. *)
Record Props := {
  p_modelValue : model_value;
  p_selection : option string;
  p_clearable : bool;
  p_items : list value;
  p_multiple : bool;
  p_cols : Z;
  p_itemText : projection string;
  p_itemValue : projection value;
  p_disabled : bool
}.

(** [useSelect(props)] reads its options off the props. *)
Definition props_options (p : Props) : SelectOptions := {|
  o_items := p_items p;
  o_multiple := Some (p_multiple p);
  o_itemText := Some (p_itemText p);
  o_itemValue := Some (p_itemValue p);
  o_cols := Some (p_cols p)
|}.

(** The data the render function of [RenderlessSelect] hands to the default
    slot; the three callbacks it passes along are [select], [has] and
    [UseSet.clear]. *)
Record SlotProps := {
  sp_selectedStr : string;
  sp_modelValue : model_value;
  sp_items : list value;
  sp_clearable : bool;
  sp_cols : Z;
  sp_rows : Z;
  sp_itemRows : list (list value);
  sp_multiple : bool;
  sp_itemText : projection string;
  sp_itemValue : projection value
}.

(** [a || b] on strings: [b] when [a] is absent or empty. *)
Definition or_str (a : option string) (b : string) : string :=
  match a with
  | Some x => if bool_decide (x = EmptyString) then b else x
  | None => b
  end.

Definition slotProps (p : Props) (u : Select) (st : SelectState) : SlotProps := {|
  sp_selectedStr := or_str (p_selection p) (selectedStr st);
  sp_modelValue := p_modelValue p;
  sp_items := p_items p;
  sp_clearable := p_clearable p && negb (isEmpty u st);
  sp_cols := p_cols p;
  sp_rows := Z.of_nat (length (itemRows u));
  sp_itemRows := itemRows u;
  sp_multiple := p_multiple p;
  sp_itemText := p_itemText p;
  sp_itemValue := p_itemValue p
|}.

(** The calls other than [add] and [toggle], which are the two that can put
    a second item beside the first in single mode. *)
Definition replaces (o : op) : bool :=
  match o with
  | Add _ | Toggle _ => false
  | _ => true
  end.

(** What the watcher leaves in [selected] and [selectedStr] in multiple
    mode when it runs on the tracker state [st]. *)
Definition derived (h : heap) (u : Select) (st : SetState)
  (sel : model_value) (str : string) : Prop :=
  ∃ vs texts,
    mapM (getValue h (itemValue u)) (values st) = Ok vs
    ∧ mapM (getText h (itemText u)) (values st) = Ok texts
    ∧ sel = Many vs
    ∧ join h "," texts = Ok str.

(** ** Concrete controllers *)

(** The candidates of the scenarios of the specification and a few more
    objects, all plain, in one store.  The only numbers printed in the
    scenarios are small integers, which print as their decimal digits. *)
Module Scenario.
(** [{value: 1, text: "a"}] and [{value: 2, text: "b"}] *)
Definition a : value := VRef 0.
Definition b : value := VRef 1.
(** an object that is not offered as a candidate *)
Definition stale : value := VRef 2.
(** [{value: 7, text: "c"}] and [{value: 7, text: "d"}]: two items with
    one value *)
Definition c : value := VRef 3.
Definition d : value := VRef 4.

Definition fields (addr : nat) : list (string * value) :=
  match addr with
  | 0%nat => [("value", VNum (Int 1)); ("text", VStr "a")]
  | 1%nat => [("value", VNum (Int 2)); ("text", VStr "b")]
  | 2%nat => [("value", VNum (Int 3)); ("text", VStr "z")]
  | 3%nat => [("value", VNum (Int 7)); ("text", VStr "c")]
  | 4%nat => [("value", VNum (Int 7)); ("text", VStr "d")]
  | _ => []
  end%string.

Fixpoint field (fs : list (string * value)) (k : string) : value :=
  match fs with
  | [] => VUndefined
  | (k', v) :: fs' => if String.eqb k' k then v else field fs' k
  end.

Definition store : heap := {|
  read := λ o k, match o with VRef addr => field (fields addr) k | _ => VUndefined end;
  show := λ _, Ok "[object Object]"%string;
  print := λ n, match n with Int z => pretty z | _ => EmptyString end;
  reactive := λ _, true
|}.

Definition options (multiple : bool) : SelectOptions := {|
  o_items := [a; b];
  o_multiple := Some multiple;
  o_itemText := None;
  o_itemValue := None;
  o_cols := None
|}.

(** The controller [useSelect] builds from [options multiple]. *)
Definition controller (multiple : bool) : Select := {|
  items := [a; b];
  cols := 1;
  multiple := multiple;
  itemText := Field "text";
  itemValue := Field "value";
  itemMap := [(VNum (Int 1), a); (VNum (Int 2), b)];
  itemRows := [[a]; [b]]
|}.

Definition initial (multiple : bool) : SelectState := {|
  s := UseSet.init;
  selected := if multiple then Many [] else One VNull;
  selectedStr := EmptyString;
  watched := 0
|}.

(** Multiple selection over the two items that share the value 7. *)
Definition twin_options : SelectOptions := {|
  o_items := [c; d];
  o_multiple := Some true;
  o_itemText := None;
  o_itemValue := None;
  o_cols := None
|}.

Definition twins : Select := {|
  items := [c; d];
  cols := 1;
  multiple := true;
  itemText := Field "text";
  itemValue := Field "value";
  itemMap := [(VNum (Int 7), d)];
  itemRows := [[c]; [d]]
|}.

(** Multiple selection over the numbers 0 and 5, each its own value. *)
Definition number_options : SelectOptions := {|
  o_items := [VNum (Int 0); VNum (Int 5)];
  o_multiple := Some true;
  o_itemText := Some (Fn (to_str store));
  o_itemValue := Some (Fn (λ i, Ok i));
  o_cols := None
|}.

Definition numbers : Select := {|
  items := [VNum (Int 0); VNum (Int 5)];
  cols := 1;
  multiple := true;
  itemText := Fn (to_str store);
  itemValue := Fn (λ i, Ok i);
  itemMap := [(VNum (Int 0), VNum (Int 0)); (VNum (Int 5), VNum (Int 5))];
  itemRows := [[VNum (Int 0)]; [VNum (Int 5)]]
|}.
End Scenario.

(** ** Facts about the library model *)

Lemma same_value_zero_true a b : same_value_zero a b = true ↔ a = b.
Proof. unfold same_value_zero. apply bool_decide_eq_true. Qed.

Lemma same_value_zero_false a b : same_value_zero a b = false ↔ a ≠ b.
Proof. unfold same_value_zero. apply bool_decide_eq_false. Qed.

Lemma strict_eq_true a b : strict_eq a b = true → a = b.
Proof.
  unfold strict_eq.
  destruct a as [| | |[| | |]| |], b as [| | |[| | |]| |];
    first [discriminate | apply bool_decide_eq_true].
Qed.

Lemma has_elem (vs : JsSet.t) x : JsSet.has vs x = true ↔ x ∈ vs.
Proof.
  unfold JsSet.has. rewrite existsb_exists. split.
  - intros (y & Hy & Heq). apply same_value_zero_true in Heq.
    subst. now apply list_elem_of_In.
  - intros Hx. exists x. split; [now apply list_elem_of_In|].
    now apply same_value_zero_true.
Qed.

Lemma has_not_elem (vs : JsSet.t) x : JsSet.has vs x = false ↔ x ∉ vs.
Proof.
  rewrite <- has_elem. destruct (JsSet.has vs x); split; congruence.
Qed.

Lemma indexOf_from_found l x i :
  indexOf_from l x i ≠ -1 → x ∈ l.
Proof.
  revert i. induction l as [|y l IH]; intros i; simpl; [congruence|].
  destruct (strict_eq y x) eqn:E.
  - apply strict_eq_true in E. subst. intros _. apply elem_of_cons. now left.
  - intros H. apply elem_of_cons. right. eauto.
Qed.

Lemma indexOf_from_bounds l x i :
  indexOf_from l x i = -1 ∨ i ≤ indexOf_from l x i.
Proof.
  revert i. induction l as [|y l IH]; intros i; simpl; [now left|].
  destruct (strict_eq y x); [right; lia|].
  destruct (IH (i + 1)) as [->|]; [now left | right; lia].
Qed.

Lemma indexOf_candidate l x : indexOf l x ≠ -1 → x ∈ l.
Proof. apply indexOf_from_found. Qed.

Lemma add_elem (vs : JsSet.t) x y : y ∈ JsSet.add vs x ↔ y ∈ vs ∨ y = x.
Proof.
  unfold JsSet.add. destruct (JsSet.has vs x) eqn:E.
  - apply has_elem in E. split; [tauto | intros [H | ->]; assumption].
  - rewrite elem_of_app, list_elem_of_singleton. tauto.
Qed.

Lemma add_NoDup (vs : JsSet.t) x : NoDup vs → NoDup (JsSet.add vs x).
Proof.
  intros Hnd. unfold JsSet.add. destruct (JsSet.has vs x) eqn:E; [assumption|].
  apply has_not_elem in E. apply NoDup_app. split; [assumption|].
  split; [|apply NoDup_singleton].
  intros y Hy ->%list_elem_of_singleton. contradiction.
Qed.

Lemma delete_elem (vs : JsSet.t) x y :
  y ∈ (JsSet.delete vs x).1 ↔ y ∈ vs ∧ y ≠ x.
Proof.
  simpl. rewrite list_elem_of_In, filter_In, <- list_elem_of_In.
  rewrite negb_true_iff, same_value_zero_false. tauto.
Qed.

Lemma delete_NoDup (vs : JsSet.t) x : NoDup vs → NoDup (JsSet.delete vs x).1.
Proof.
  simpl. rewrite !NoDup_ListNoDup. apply List.NoDup_filter.
Qed.

Lemma delete_absent (vs : JsSet.t) x :
  JsSet.has vs x = false → (JsSet.delete vs x).1 = vs.
Proof.
  intros E%has_not_elem. simpl. induction vs as [|y vs IH]; [reflexivity|].
  simpl. rewrite not_elem_of_cons in E. destruct E as [Hne Hni].
  replace (same_value_zero y x) with false
    by (symmetry; apply same_value_zero_false; congruence).
  simpl. f_equal. auto.
Qed.

(** ** The tracker keeps its invariant *)

Lemma wf_init items : wf items UseSet.init.
Proof.
  split; simpl; [constructor|]. intros x Hx. now apply elem_of_nil in Hx.
Qed.

Lemma wf_add items item st : wf items st → wf items (UseSet.add items item st).
Proof.
  intros [Hnd Hsub]. unfold UseSet.add.
  destruct (indexOf items item =? -1) eqn:E; [now split|].
  apply Z.eqb_neq in E. split; simpl.
  - now apply add_NoDup.
  - intros x [Hx | ->]%add_elem; auto.
Qed.

Lemma wf_remove items item st : wf items st → wf items (UseSet.remove item st).
Proof.
  intros [Hnd Hsub]. unfold UseSet.remove.
  destruct (JsSet.delete (values st) item) as [vs deleted] eqn:E.
  assert (vs = (JsSet.delete (values st) item).1) as -> by now rewrite E.
  assert (wf items {| values := (JsSet.delete (values st) item).1;
                      updated := updated st |}) as Hwf.
  { split; simpl.
    - now apply delete_NoDup.
    - intros x [Hx _]%delete_elem. auto. }
  destruct deleted; [|exact Hwf]. exact Hwf.
Qed.

Lemma wf_clear items st : wf items (UseSet.clear st).
Proof.
  split; simpl; [constructor|]. intros x Hx. now apply elem_of_nil in Hx.
Qed.

Lemma wf_toggle items item st :
  wf items st → wf items (UseSet.toggle items item st).
Proof.
  intros Hwf. unfold UseSet.toggle.
  destruct (UseSet.has item st); [now apply wf_remove | now apply wf_add].
Qed.

Lemma wf_select u item st : wf (items u) st → wf (items u) (select u item st).
Proof.
  intros Hwf. unfold select.
  destruct (multiple u); [now apply wf_toggle | apply wf_add, wf_clear].
Qed.

Lemma wf_select_all u its st :
  wf (items u) st → wf (items u) (fold_left (λ st i, select u i st) its st).
Proof.
  revert st. induction its as [|i its IH]; intros st Hwf; simpl; [assumption|].
  apply IH. now apply wf_select.
Qed.

Lemma wf_setItems u its st : wf (items u) st → wf (items u) (setItems u its st).
Proof.
  intros Hwf. unfold setItems.
  destruct (UseSet.equals its st); [assumption|].
  apply wf_select_all, wf_clear.
Qed.

Lemma wf_exec u o st : wf (items u) st → wf (items u) (exec u o st).
Proof.
  intros Hwf.
  destruct o; simpl;
    auto using wf_add, wf_remove, wf_toggle, wf_clear, wf_select, wf_setItems.
  unfold setValues. now apply wf_setItems.
Qed.

Lemma wf_run u ops st : wf (items u) st → wf (items u) (run u ops st).
Proof.
  unfold run. revert st.
  induction ops as [|o ops IH]; intros st Hwf; simpl; [assumption|].
  apply IH. now apply wf_exec.
Qed.

Lemma state_eta (st : SetState) :
  {| values := values st; updated := updated st |} = st.
Proof. now destruct st. Qed.

Lemma remove_absent item st :
  JsSet.has (values st) item = false → UseSet.remove item st = st.
Proof.
  intros E. unfold UseSet.remove.
  pose proof (delete_absent _ _ E) as Hd. unfold JsSet.delete in *. simpl in Hd.
  rewrite Hd, E. apply state_eta.
Qed.

(** ** The tracker: counter, invalid items, equality *)

(** C9.  After every finite sequence of add, remove, toggle, clear, select,
    setItems and setValues calls from the initial empty state, every member
    of the selection set is found by [items.indexOf] and so is an element of
    the candidate list. *)
Theorem selection_within_candidates u ops x :
  x ∈ values (run u ops UseSet.init) →
  indexOf (items u) x ≠ -1 ∧ x ∈ items u.
Proof.
  intros Hx.
  destruct (wf_run u ops UseSet.init (wf_init _)) as [_ Hsub].
  split; [|apply indexOf_candidate]; auto.
Qed.

Lemma selection_within_candidates_witness :
  Scenario.b ∈ values (run (Scenario.controller true)
                         [SelectItem Scenario.a; SelectItem Scenario.b] UseSet.init)
  ∧ indexOf (items (Scenario.controller true)) Scenario.b ≠ -1
  ∧ Scenario.b ∈ items (Scenario.controller true).
Proof.
  assert (H : Scenario.b ∈ values (run (Scenario.controller true)
                [SelectItem Scenario.a; SelectItem Scenario.b] UseSet.init)).
  { vm_compute. apply elem_of_cons. right. apply elem_of_cons. now left. }
  split; [exact H|].
  exact (selection_within_candidates (Scenario.controller true)
           [SelectItem Scenario.a; SelectItem Scenario.b] Scenario.b H).
Defined.

Lemma updated_add items item st :
  updated (UseSet.add items item st)
  = updated st + (if indexOf items item =? -1 then 0 else 1).
Proof. unfold UseSet.add. destruct (indexOf items item =? -1); simpl; lia. Qed.

Lemma values_add items item st :
  values (UseSet.add items item st)
  = if (indexOf items item =? -1) || UseSet.has item st then values st
    else values st ++ [item].
Proof.
  unfold UseSet.add, UseSet.has, JsSet.add.
  destruct (indexOf items item =? -1); simpl; [reflexivity|].
  now destruct (JsSet.has (values st) item).
Qed.

Lemma updated_remove item st :
  updated (UseSet.remove item st)
  = updated st + (if UseSet.has item st then 1 else 0).
Proof.
  unfold UseSet.remove, UseSet.has, JsSet.delete.
  destruct (JsSet.has (values st) item); simpl; lia.
Qed.

Lemma updated_clear st : updated (UseSet.clear st) = updated st + 1.
Proof. reflexivity. Qed.

Lemma updated_toggle items item st :
  updated (UseSet.toggle items item st)
  = updated st
    + (if UseSet.has item st || negb (indexOf items item =? -1) then 1 else 0).
Proof.
  unfold UseSet.toggle. destruct (UseSet.has item st) eqn:E.
  - rewrite updated_remove, ?E. reflexivity.
  - rewrite updated_add. simpl. now destruct (indexOf items item =? -1).
Qed.


(** The controllers of [Scenario] are the ones [useSelect] builds. *)
Lemma scenario_built multiple :
  useSelect Scenario.store (Scenario.options multiple)
  = Ok (Scenario.controller multiple, Scenario.initial multiple).
Proof. now destruct multiple. Qed.

Lemma twins_built :
  useSelect Scenario.store Scenario.twin_options
  = Ok (Scenario.twins, Scenario.initial true).
Proof. reflexivity. Qed.

Lemma numbers_built :
  useSelect Scenario.store Scenario.number_options
  = Ok (Scenario.numbers, Scenario.initial true).
Proof. reflexivity. Qed.


(** Items that [items.indexOf] does not find are ignored by [add], [remove]
    and [toggle], and by [select] in multiple mode. *)
Lemma non_candidate_ignored u item st :
  wf (items u) st → indexOf (items u) item = -1 →
  UseSet.add (items u) item st = st
  ∧ UseSet.remove item st = st
  ∧ UseSet.toggle (items u) item st = st
  ∧ (multiple u = true → select u item st = st).
Proof.
  intros [_ Hsub] Hidx.
  assert (Hhas : JsSet.has (values st) item = false).
  { apply has_not_elem. intros Hin. now apply Hsub in Hin. }
  assert (Hadd : UseSet.add (items u) item st = st).
  { unfold UseSet.add. now rewrite Hidx. }
  assert (Htog : UseSet.toggle (items u) item st = st).
  { unfold UseSet.toggle, UseSet.has. now rewrite Hhas. }
  split; [exact Hadd|]. split; [now apply remove_absent|].
  split; [exact Htog|]. intros Hm. unfold select. now rewrite Hm.
Qed.

(** In single mode [select] of such an item still clears the set. *)
Lemma non_candidate_select_single u item st :
  multiple u = false → indexOf (items u) item = -1 →
  select u item st = {| values := []; updated := updated st + 1 |}.
Proof.
  intros Hm Hidx. unfold select, UseSet.add. rewrite Hm, Hidx. reflexivity.
Qed.

(** C3 at the failing input: single mode, [a] selected, then [select] of an
    object that is not a candidate.  The selection is emptied and the counter
    goes from 2 to 3. *)
Theorem select_stale_item_single_mode :
  let u := Scenario.controller false in
  let st := select u Scenario.a UseSet.init in
  indexOf (items u) Scenario.stale = -1
  ∧ st = {| values := [Scenario.a]; updated := 2 |}
  ∧ select u Scenario.stale st = {| values := []; updated := 3 |}.
Proof. repeat split. Qed.

(** C1 at the failing input: in single mode [isEmpty] is the truthiness of
    [selected].  Right after construction nothing is selected and [selected]
    is [null], yet [isEmpty] is false; once [a] is selected and the watcher
    has run, [selected] is 1 and [isEmpty] is true. *)
Theorem isEmpty_single_mode_inverted :
  let u := Scenario.controller false in
  let st0 := Scenario.initial false in
  values (s st0) = [] ∧ selected st0 = One VNull ∧ isEmpty u st0 = false
  ∧ ∃ st1, flush Scenario.store u (call u (SelectItem Scenario.a) st0) = Ok st1
      ∧ values (s st1) = [Scenario.a]
      ∧ selected st1 = One (VNum (Int 1))
      ∧ isEmpty u st1 = true.
Proof.
  split; [reflexivity|]. split; [reflexivity|]. split; [reflexivity|].
  eexists. split; [reflexivity|]. repeat split.
Qed.

(** C5 at the failing input: in single mode with the default field
    projections, after [clear()] the watcher reads [value] off
    [items[0]], which is [undefined] for the empty set, and throws. *)
Theorem recompute_throws_on_empty_single :
  let u := Scenario.controller false in
  let st := call u Clear (Scenario.initial false) in
  values (s st) = []
  ∧ recompute Scenario.store u st = Throw TypeError
  ∧ flush Scenario.store u st = Throw TypeError.
Proof. repeat split. Qed.

Lemma all_selected_spec st its :
  UseSet.all_selected st its = true ↔ ∀ x, x ∈ its → x ∈ values st.
Proof.
  induction its as [|i its IH]; simpl.
  - split; [|reflexivity]. intros _ x Hx. now apply elem_of_nil in Hx.
  - destruct (JsSet.has (values st) i) eqn:E; simpl.
    + apply has_elem in E. rewrite IH. split.
      * intros H x [->|Hx]%elem_of_cons; auto.
      * intros H x Hx. apply H, elem_of_cons. now right.
    + apply has_not_elem in E. split; [discriminate|].
      intros H. exfalso. apply E, H, elem_of_cons. now left.
Qed.

Lemma equals_spec its st :
  UseSet.equals its st = true
  ↔ length its = length (values st) ∧ ∀ x, x ∈ its → x ∈ values st.
Proof.
  unfold UseSet.equals, JsSet.size. rewrite <- all_selected_spec.
  destruct (Z.of_nat (length its) =? Z.of_nat (length (values st))) eqn:E; simpl.
  - apply Z.eqb_eq in E. split; [intros H; split; [lia | exact H] | tauto].
  - apply Z.eqb_neq in E. split; [discriminate | intros [Hl _]; lia].
Qed.

(** C6 as stated fails: with [a] and [b] selected, [equals([a, a])] is true
    although [b] is selected and is no element of [[a, a]]. *)
Lemma equals_accepts_duplicates :
  let u := Scenario.controller true in
  let st := run u [Add Scenario.a; Add Scenario.b] UseSet.init in
  ¬ (UseSet.equals [Scenario.a; Scenario.a] st = true
     ↔ ∀ x, x ∈ [Scenario.a; Scenario.a] ↔ x ∈ values st).
Proof.
  intros u st [H _]. specialize (H eq_refl Scenario.b) as [_ H].
  assert (Hb : Scenario.b ∈ values st).
  { apply elem_of_cons. right. apply elem_of_cons. now left. }
  apply H in Hb. apply elem_of_cons in Hb as [Hb|Hb]; [discriminate|].
  apply elem_of_cons in Hb as [Hb|Hb]; [discriminate|].
  now apply elem_of_nil in Hb.
Qed.

(** C6, as the code has it.  [equals(items)] is true exactly when [items]
    has as many entries as the selection set has members and every entry is
    selected; so for every list [items] without duplicates, and every state
    the tracker can be in, it is true if and only if the elements of [items]
    are exactly the members of the selection set. *)
Theorem equals_iff_same_set u ops its :
  NoDup its →
  let st := run u ops UseSet.init in
  UseSet.equals its st = true ↔ ∀ x, x ∈ its ↔ x ∈ values st.
Proof.
  intros Hnd st.
  destruct (wf_run u ops UseSet.init (wf_init _)) as [Hvs _].
  fold st in Hvs. rewrite equals_spec. split.
  - intros [Hlen Hsub] x. split; [apply Hsub|].
    rewrite !list_elem_of_In. revert x.
    apply List.NoDup_length_incl.
    + now apply NoDup_ListNoDup.
    + lia.
    + intros x. rewrite <- !list_elem_of_In. apply Hsub.
  - intros Heq. split; [|intros x; apply Heq].
    apply Permutation_length, NoDup_Permutation; assumption.
Qed.

Lemma equals_iff_same_set_witness :
  NoDup [Scenario.b; Scenario.a]
  ∧ (UseSet.equals [Scenario.b; Scenario.a]
       (run (Scenario.controller true) [Add Scenario.a; Add Scenario.b] UseSet.init)
     = true
     ↔ ∀ x, x ∈ [Scenario.b; Scenario.a]
            ↔ x ∈ values (run (Scenario.controller true)
                            [Add Scenario.a; Add Scenario.b] UseSet.init)).
Proof.
  assert (Hnd : NoDup [Scenario.b; Scenario.a]).
  { apply NoDup_ListNoDup. repeat constructor; simpl; intuition discriminate. }
  split; [exact Hnd|].
  exact (equals_iff_same_set (Scenario.controller true)
           [Add Scenario.a; Add Scenario.b] [Scenario.b; Scenario.a] Hnd).
Defined.

(** ** Calls, the counter and the watcher *)

Lemma updated_add_bounds items item st :
  updated st ≤ updated (UseSet.add items item st) ≤ updated st + 1.
Proof. rewrite updated_add. destruct (indexOf items item =? -1); lia. Qed.

Lemma updated_remove_bounds item st :
  updated st ≤ updated (UseSet.remove item st) ≤ updated st + 1.
Proof. rewrite updated_remove. destruct (UseSet.has item st); lia. Qed.

Lemma updated_toggle_bounds items item st :
  updated st ≤ updated (UseSet.toggle items item st) ≤ updated st + 1.
Proof.
  rewrite updated_toggle.
  destruct (UseSet.has item st || negb (indexOf items item =? -1)); lia.
Qed.

Lemma updated_select_bounds u item st :
  updated st ≤ updated (select u item st) ≤ updated st + bumps_per_select u.
Proof.
  unfold select, bumps_per_select. destruct (multiple u).
  - apply updated_toggle_bounds.
  - pose proof (updated_add_bounds (items u) item (UseSet.clear st)) as H.
    rewrite updated_clear in H. lia.
Qed.

Lemma updated_select_all_bounds u its st :
  updated st ≤ updated (fold_left (λ st i, select u i st) its st)
  ≤ updated st + bumps_per_select u * Z.of_nat (length its).
Proof.
  revert st. induction its as [|i its IH]; intros st; simpl length; simpl fold_left.
  - lia.
  - specialize (IH (select u i st)).
    pose proof (updated_select_bounds u i st) as H.
    assert (0 ≤ bumps_per_select u) by (unfold bumps_per_select; destruct (multiple u); lia).
    lia.
Qed.

Lemma updated_setItems_bounds u its st :
  updated st ≤ updated (setItems u its st)
  ≤ updated st + 1 + bumps_per_select u * Z.of_nat (length its).
Proof.
  assert (0 ≤ bumps_per_select u) by (unfold bumps_per_select; destruct (multiple u); lia).
  unfold setItems. destruct (UseSet.equals its st); [lia|].
  pose proof (updated_select_all_bounds u its (UseSet.clear st)) as H1.
  rewrite updated_clear in H1. lia.
Qed.

Lemma updated_exec_bounds u o st :
  updated st ≤ updated (exec u o st) ≤ updated st + bumps_bound u o.
Proof.
  destruct o as [item|item|item| |item|its|vs]; cbn [exec bumps_bound].
  - apply updated_add_bounds.
  - apply updated_remove_bounds.
  - apply updated_toggle_bounds.
  - rewrite updated_clear. lia.
  - apply updated_select_bounds.
  - pose proof (updated_setItems_bounds u its st). lia.
  - unfold setValues.
    pose proof (updated_setItems_bounds u (resolve u vs) st) as H.
    assert (length (resolve u vs) ≤ length (to_array vs))%nat as Hl.
    { unfold resolve. etransitivity; [apply List.filter_length_le|].
      now rewrite length_map. }
    assert (0 ≤ bumps_per_select u) by (unfold bumps_per_select; destruct (multiple u); lia).
    nia.
Qed.





(** ** The value index and setValues *)

Lemma bind_Ok {A B} (r : result A) (k : A → result B) b :
  (r ≫= k) = Ok b → ∃ a, r = Ok a ∧ k a = Ok b.
Proof. destruct r as [a|e]; [eauto | discriminate]. Qed.

Lemma mapM_Ok {A B} (f : A → result B) l ys :
  mapM f l = Ok ys → Forall2 (λ x y, f x = Ok y) l ys.
Proof.
  revert ys. induction l as [|x l IH]; intros ys H.
  - injection H as <-. constructor.
  - cbn [mapM] in H.
    apply bind_Ok in H as (y & Hy & H). apply bind_Ok in H as (ys' & Hys & H).
    injection H as <-. constructor; auto.
Qed.

Lemma lookup_set m k v k' :
  JsMap.lookup (JsMap.set m k v) k'
  = if same_value_zero k k' then Some v else JsMap.lookup m k'.
Proof.
  induction m as [|[k0 v0] m IH]; simpl; [reflexivity|].
  destruct (same_value_zero k0 k) eqn:E; simpl.
  - apply same_value_zero_true in E. subst k0.
    now destruct (same_value_zero k k').
  - rewrite IH. destruct (same_value_zero k0 k') eqn:E'; [|reflexivity].
    apply same_value_zero_true in E'. subst k0.
    destruct (same_value_zero k k') eqn:E2; [|reflexivity].
    apply same_value_zero_true in E2. subst k'.
    apply same_value_zero_false in E. congruence.
Qed.

Lemma lookup_entries_inv es m k v :
  JsMap.lookup (fold_left (λ m e, JsMap.set m e.1 e.2) es m) k = Some v →
  (k, v) ∈ es ∨ JsMap.lookup m k = Some v.
Proof.
  revert m. induction es as [|[k0 v0] es IH]; intros m H; simpl in H; [now right|].
  apply IH in H as [H|H]; [left; apply elem_of_cons; now right|].
  rewrite lookup_set in H. simpl in H.
  destruct (same_value_zero k0 k) eqn:E; [|now right].
  apply same_value_zero_true in E. injection H as <-. subst k0.
  left. apply elem_of_cons. now left.
Qed.

Lemma lookup_entries_keep es m k :
  is_Some (JsMap.lookup m k) →
  is_Some (JsMap.lookup (fold_left (λ m e, JsMap.set m e.1 e.2) es m) k).
Proof.
  revert m. induction es as [|[k0 v0] es IH]; intros m H; simpl; [assumption|].
  apply IH. rewrite lookup_set. simpl.
  destruct (same_value_zero k0 k); [eauto | assumption].
Qed.

Lemma lookup_entries_some es m k v :
  (k, v) ∈ es →
  is_Some (JsMap.lookup (fold_left (λ m e, JsMap.set m e.1 e.2) es m) k).
Proof.
  revert m. induction es as [|[k0 v0] es IH]; intros m H; simpl.
  - now apply elem_of_nil in H.
  - apply elem_of_cons in H as [H|H]; [|now apply IH].
    injection H as <- <-. apply lookup_entries_keep.
    rewrite lookup_set. simpl.
    replace (same_value_zero k k) with true
      by (symmetry; now apply same_value_zero_true).
    eauto.
Qed.

(** Every entry of the index pairs a candidate with its value, and every
    candidate's value has an entry. *)
Lemma value_index_sound h p its m v item :
  value_index h p its = Ok m → JsMap.lookup m v = Some item →
  item ∈ its ∧ getValue h p item = Ok v.
Proof.
  unfold value_index. intros H Hl.
  apply bind_Ok in H as (es & Hes & H). injection H as <-.
  apply lookup_entries_inv in Hl as [Hin|Hl]; [|discriminate].
  apply mapM_Ok in Hes. clear -Hes Hin.
  induction Hes as [|i e its es Hi _ IH]; [now apply elem_of_nil in Hin|].
  apply bind_Ok in Hi as (v' & Hv' & Hi). injection Hi as <-.
  apply elem_of_cons in Hin as [Hin|Hin].
  - injection Hin as -> ->. split; [apply elem_of_cons; now left | assumption].
  - destruct (IH Hin) as [??]. split; [apply elem_of_cons; now right | assumption].
Qed.

Lemma value_index_complete h p its m v item :
  value_index h p its = Ok m → item ∈ its → getValue h p item = Ok v →
  is_Some (JsMap.lookup m v).
Proof.
  unfold value_index. intros H Hin Hv.
  apply bind_Ok in H as (es & Hes & H). injection H as <-.
  apply lookup_entries_some with (v := item).
  apply mapM_Ok in Hes. clear -Hes Hin Hv.
  induction Hes as [|i e its es Hi _ IH]; [now apply elem_of_nil in Hin|].
  apply elem_of_cons in Hin as [->|Hin].
  - rewrite Hv in Hi. injection Hi as <-. apply elem_of_cons. now left.
  - apply elem_of_cons. right. auto.
Qed.

Lemma resolve_app u vs1 vs2 :
  resolve u (Many (vs1 ++ vs2)) = resolve u (Many vs1) ++ resolve u (Many vs2).
Proof. unfold resolve. simpl. now rewrite map_app, List.filter_app. Qed.

(** C10.  [setValues] keeps a value when the item the index returns for it
    is truthy.  A value whose entry in the index is a falsy item is dropped,
    wherever it stands in the argument, exactly like a value without an
    entry: the call behaves as if the value had not been passed, and passing
    it alone is [setItems([])]. *)
Theorem setValues_drops_falsy_item u v item :
  JsMap.lookup (itemMap u) v = Some item → truthy item = false →
  ∀ vs1 vs2 st,
    resolve u (Many (vs1 ++ v :: vs2)) = resolve u (Many (vs1 ++ vs2))
    ∧ setValues u (Many (vs1 ++ v :: vs2)) st = setValues u (Many (vs1 ++ vs2)) st
    ∧ setValues u (One v) st = setItems u [] st.
Proof.
  intros Hl Hf vs1 vs2 st.
  assert (Hv : resolve u (One v) = []).
  { unfold resolve, JsMap.get. simpl. rewrite Hl. simpl. now rewrite Hf. }
  assert (Hr : resolve u (Many (vs1 ++ v :: vs2)) = resolve u (Many (vs1 ++ vs2))).
  { rewrite !resolve_app. f_equal.
    change (v :: vs2) with ([v] ++ vs2). rewrite resolve_app.
    change (resolve u (Many [v])) with (resolve u (One v)). now rewrite Hv. }
  split; [exact Hr|]. unfold setValues. now rewrite Hr, Hv.
Qed.

Lemma setValues_drops_falsy_item_witness :
  let zero := VNum (Int 0) in
  indexOf (items Scenario.numbers) zero = 0
  ∧ JsMap.lookup (itemMap Scenario.numbers) zero = Some zero
  ∧ truthy zero = false
  ∧ resolve Scenario.numbers (Many ([VNum (Int 5)] ++ zero :: []))
    = [VNum (Int 5)]
  ∧ setValues Scenario.numbers (One zero) UseSet.init = UseSet.init.
Proof.
  intros zero.
  assert (Hl : JsMap.lookup (itemMap Scenario.numbers) zero = Some zero)
    by reflexivity.
  assert (Hf : truthy zero = false) by reflexivity.
  destruct (setValues_drops_falsy_item Scenario.numbers zero zero Hl Hf
              [VNum (Int 5)] [] UseSet.init) as (Hr & _ & Ho).
  split; [reflexivity|]. split; [exact Hl|]. split; [exact Hf|].
  split; [etransitivity; [exact Hr | reflexivity]|].
  etransitivity; [exact Ho | reflexivity].
Defined.

(** ** Construction *)




(** ** Reachable states and the round trip through setValues *)

Lemma useSelect_inv h options u st :
  useSelect h options = Ok (u, st) →
  value_index h (itemValue u) (items u) = Ok (itemMap u)
  ∧ st = {| s := UseSet.init;
            selected := if multiple u then Many [] else One VNull;
            selectedStr := EmptyString; watched := 0 |}.
Proof.
  unfold useSelect, useSelect_with. intros H.
  apply bind_Ok in H as (m & Hm & H). apply bind_Ok in H as (rows & _ & H).
  injection H as <- <-. simpl. split; [exact Hm | reflexivity].
Qed.

(** A call that leaves the counter where it was has changed nothing. *)
Lemma exec_same_counter u o st :
  updated (exec u o st) = updated st → exec u o st = st.
Proof.
  assert (Ha : ∀ item st, updated (UseSet.add (items u) item st) = updated st →
                          UseSet.add (items u) item st = st).
  { intros item st0. unfold UseSet.add.
    destruct (indexOf (items u) item =? -1); [reflexivity | simpl; lia]. }
  assert (Hr : ∀ item st, updated (UseSet.remove item st) = updated st →
                          UseSet.remove item st = st).
  { intros item st0. rewrite updated_remove. unfold UseSet.has.
    destruct (JsSet.has (values st0) item) eqn:E; [lia|].
    intros _. now apply remove_absent. }
  assert (Ht : ∀ item st, updated (UseSet.toggle (items u) item st) = updated st →
                          UseSet.toggle (items u) item st = st).
  { intros item st0. unfold UseSet.toggle.
    destruct (UseSet.has item st0); auto. }
  assert (Hs : ∀ its st, updated (setItems u its st) = updated st →
                         setItems u its st = st).
  { intros its st0. unfold setItems.
    destruct (UseSet.equals its st0); [reflexivity|].
    pose proof (updated_select_all_bounds u its (UseSet.clear st0)) as H.
    rewrite updated_clear in H. lia. }
  destruct o as [item|item|item| |item|its|vs]; cbn [exec]; auto.
  - rewrite updated_clear. lia.
  - unfold select. destruct (multiple u); [apply Ht|].
    pose proof (updated_add_bounds (items u) item (UseSet.clear st)) as H.
    rewrite updated_clear in H. lia.
  - apply Hs.
Qed.

Lemma recompute_inv h u st st' :
  recompute h u st = Ok st' →
  s st' = s st ∧ watched st' = watched st
  ∧ (multiple u = true →
     ∃ vs, mapM (getValue h (itemValue u)) (values (s st)) = Ok vs
           ∧ selected st' = Many vs).
Proof.
  unfold recompute. intros H.
  apply bind_Ok in H as (sel & Hsel & H). apply bind_Ok in H as (texts & _ & H).
  apply bind_Ok in H as (str & _ & H).
  injection H as <-. simpl. split; [reflexivity|]. split; [reflexivity|].
  intros Hm. rewrite Hm in Hsel.
  apply bind_Ok in Hsel as (vs & Hvs & Hsel). injection Hsel as <-. eauto.
Qed.

Lemma reachable_consistent h options u st :
  reachable h options u st → consistent h u st.
Proof.
  induction 1 as [u st Hb | u o st _ IH | u st st' _ IH Hf].
  - apply useSelect_inv in Hb as [Hidx ->]. repeat split; simpl.
    + constructor.
    + intros x Hx. now apply elem_of_nil in Hx.
    + lia.
    + exact Hidx.
    + intros -> _. exists []. split; reflexivity.
  - destruct IH as (Hwf & Hle & Hidx & Hsync).
    pose proof (updated_exec_bounds u o (s st)) as [Hlo _].
    split; [now apply wf_exec|]. split; [cbn [call s watched]; lia|].
    split; [exact Hidx|].
    cbn [call s selected watched]. intros Hm Hw.
    assert (He : exec u o (s st) = s st) by (apply exec_same_counter; lia).
    rewrite He in *. auto.
  - destruct IH as (Hwf & Hle & Hidx & Hsync). unfold flush in Hf.
    destruct (updated (s st) =? watched st) eqn:E.
    + injection Hf as <-. repeat split; auto; apply Hwf.
    + apply bind_Ok in Hf as (st1 & Hr & Hf). injection Hf as <-.
      apply recompute_inv in Hr as (Hs & _ & Hsel).
      unfold consistent. cbn [s selected watched]. rewrite Hs.
      split; [exact Hwf|]. split; [lia|]. split; [exact Hidx|]. auto.
Qed.

(** C7 as stated fails: [c] and [d] both have the value 7 and the index maps
    7 to [d].  With [c] selected and the watcher run, [selected] is [[7]];
    passing it to [setValues] replaces [c] by [d] and bumps the counter
    twice. *)
Lemma setValues_selected_swaps_twin :
  ∃ st, reachable Scenario.store Scenario.twin_options Scenario.twins st
    ∧ multiple Scenario.twins = true
    ∧ watched st = updated (s st)
    ∧ s st = {| values := [Scenario.c]; updated := 1 |}
    ∧ selected st = Many [VNum (Int 7)]
    ∧ setValues Scenario.twins (selected st) (s st)
      = {| values := [Scenario.d]; updated := 3 |}.
Proof.
  eexists. split.
  - eapply reach_flush.
    + apply (reach_call _ _ _ (SelectItem Scenario.c)), reach_init, twins_built.
    + reflexivity.
  - repeat split.
Qed.

Lemma resolve_selected h u st vs :
  (∀ x v, x ∈ values st → getValue h (itemValue u) x = Ok v →
          JsMap.get (itemMap u) v = x ∧ truthy x = true) →
  mapM (getValue h (itemValue u)) (values st) = Ok vs →
  resolve u (Many vs) = values st.
Proof.
  intros Hsel Hvs. apply mapM_Ok in Hvs. unfold resolve. simpl.
  induction Hvs as [|x v xs vs Hx _ IH]; [reflexivity|].
  destruct (Hsel x v) as [Hg Ht]; [apply elem_of_cons; now left | exact Hx |].
  simpl. rewrite Hg, Ht. f_equal. apply IH.
  intros y w Hy. apply Hsel, elem_of_cons. now right.
Qed.

(** C7, as the code has it.  In multiple mode, in every reachable state in
    which the watcher is up to date, [setValues(selected)] changes neither
    the selection set nor the counter, provided that every selected item is
    truthy and is the item the value index returns for its value (among the
    candidates with that value it is the last), and that the value is read
    back from [selected] as it was assigned (a primitive, or an object the
    ref does not wrap), so that the argument of the call is [selected] as
    held here. *)
Theorem setValues_selected_noop h options u st :
  reachable h options u st →
  multiple u = true →
  watched st = updated (s st) →
  (∀ x v, x ∈ values (s st) → getValue h (itemValue u) x = Ok v →
          JsMap.get (itemMap u) v = x ∧ truthy x = true
          ∧ read_back_same h v = true) →
  setValues u (selected st) (s st) = s st.
Proof.
  intros Hreach Hm Hw Hsel.
  destruct (reachable_consistent _ _ _ _ Hreach) as (_ & _ & _ & Hsync).
  destruct (Hsync Hm Hw) as (vs & Hvs & ->).
  unfold setValues.
  rewrite (resolve_selected h u (s st) vs); [| |exact Hvs].
  - unfold setItems.
    replace (UseSet.equals (values (s st)) (s st)) with true; [reflexivity|].
    symmetry. apply equals_spec. auto.
  - intros x v Hx Hv. destruct (Hsel x v Hx Hv) as (Hg & Ht & _). now split.
Qed.

Lemma setValues_selected_noop_witness :
  let u := Scenario.controller true in
  let st := {| s := {| values := [Scenario.a; Scenario.b]; updated := 2 |};
               selected := Many [VNum (Int 1); VNum (Int 2)];
               selectedStr := "a,b"; watched := 2 |} in
  reachable Scenario.store (Scenario.options true) u st
  ∧ multiple u = true
  ∧ watched st = updated (s st)
  ∧ setValues u (selected st) (s st) = s st.
Proof.
  intros u st.
  assert (Hreach : reachable Scenario.store (Scenario.options true) u st).
  { apply (reach_flush _ _ _
             (call u (SelectItem Scenario.b)
                (call u (SelectItem Scenario.a) (Scenario.initial true)))).
    - apply reach_call, reach_call, reach_init, scenario_built.
    - reflexivity. }
  assert (Hm : multiple u = true) by reflexivity.
  assert (Hw : watched st = updated (s st)) by reflexivity.
  assert (Hsel : ∀ x v, x ∈ values (s st) →
                        getValue Scenario.store (itemValue u) x = Ok v →
                        JsMap.get (itemMap u) v = x ∧ truthy x = true
                        ∧ read_back_same Scenario.store v = true).
  { intros x v Hx Hv. apply elem_of_cons in Hx as [->|Hx].
    - vm_compute in Hv. injection Hv as <-. repeat split.
    - apply elem_of_cons in Hx as [->|Hx]; [|now apply elem_of_nil in Hx].
      vm_compute in Hv. injection Hv as <-. repeat split. }
  split; [exact Hreach|]. split; [exact Hm|]. split; [exact Hw|].
  exact (setValues_selected_noop Scenario.store (Scenario.options true) u st
           Hreach Hm Hw Hsel).
Defined.

(** ** The watcher and the derived views *)

(** In single mode with a field name as value projection, the watcher
    throws whenever it runs on an empty selection set. *)
Lemma recompute_empty_single h u st k :
  multiple u = false → itemValue u = Field k → values (s st) = [] →
  recompute h u st = Throw TypeError.
Proof.
  intros Hm Hp He. unfold recompute. now rewrite Hm, Hp, He.
Qed.

(** In single mode [isEmpty] is the truthiness of [selected]; in multiple
    mode it tells whether [selected] is the empty array. *)
Lemma isEmpty_single u st :
  multiple u = false → isEmpty u st = truthy_model (selected st).
Proof. intros Hm. unfold isEmpty. rewrite Hm. apply negb_involutive. Qed.

Lemma isEmpty_multiple u st vs :
  multiple u = true → selected st = Many vs →
  isEmpty u st = true ↔ vs = [].
Proof.
  intros Hm Hs. unfold isEmpty. rewrite Hm, Hs. simpl.
  rewrite Z.eqb_eq. destruct vs; simpl; split; (lia || congruence).
Qed.

(** * More of the tracker and the controller *)

(** ** Membership and order in the tracker *)

Lemma strict_eq_spec a b : strict_eq a b = true ↔ a = b ∧ b ≠ VNum NaN.
Proof.
  split.
  - intros H. pose proof (strict_eq_true _ _ H) as ->. split; [reflexivity|].
    intros ->. discriminate.
  - intros [-> Hn]. unfold strict_eq.
    destruct b as [| | |[| | |]| |]; try (now apply bool_decide_eq_true).
    congruence.
Qed.

Lemma indexOf_from_spec l x i :
  0 ≤ i → indexOf_from l x i ≠ -1 ↔ x ∈ l ∧ x ≠ VNum NaN.
Proof.
  revert i. induction l as [|y l IH]; intros i Hi; simpl.
  - split; [congruence|]. intros [H _]. now apply elem_of_nil in H.
  - destruct (strict_eq y x) eqn:E.
    + apply strict_eq_spec in E as [-> Hn]. split; [|lia].
      intros _. split; [apply elem_of_cons; now left | exact Hn].
    + rewrite IH by lia. rewrite elem_of_cons. split; [tauto|].
      intros [[->|H] Hn]; [|tauto].
      exfalso. assert (strict_eq y y = true) by now apply strict_eq_spec.
      congruence.
Qed.

Lemma indexOf_spec l x : indexOf l x ≠ -1 ↔ x ∈ l ∧ x ≠ VNum NaN.
Proof. apply indexOf_from_spec. lia. Qed.

Lemma is_candidate_spec l x :
  is_candidate l x = true ↔ x ∈ l ∧ x ≠ VNum NaN.
Proof.
  unfold is_candidate. rewrite negb_true_iff, Z.eqb_neq. apply indexOf_spec.
Qed.

Lemma mem_add items x st y :
  y ∈ values (UseSet.add items x st)
  ↔ y ∈ values st ∨ (y = x ∧ x ∈ items ∧ x ≠ VNum NaN).
Proof.
  rewrite <- indexOf_spec. unfold UseSet.add.
  destruct (indexOf items x =? -1) eqn:E.
  - apply Z.eqb_eq in E. tauto.
  - apply Z.eqb_neq in E. simpl. rewrite add_elem. tauto.
Qed.

(** X1.  After [add(x)] the selected items are the ones selected before,
    and [x] itself exactly when [x] is an element of the candidate list
    other than [NaN], which [indexOf] never finds. *)
Theorem add_membership items x st y :
  y ∈ values (UseSet.add items x st)
  ↔ y ∈ values st ∨ (y = x ∧ x ∈ items ∧ x ≠ VNum NaN).
Proof.
  rewrite <- indexOf_spec. unfold UseSet.add.
  destruct (indexOf items x =? -1) eqn:E.
  - apply Z.eqb_eq in E. tauto.
  - apply Z.eqb_neq in E. simpl. rewrite add_elem. tauto.
Qed.

(** X2.  [NaN] can be offered as a candidate but can never be selected: no
    sequence of calls puts it into the selection set. *)
Theorem nan_never_selected u ops :
  VNum NaN ∉ values (run u ops UseSet.init).
Proof.
  intros Hin.
  destruct (wf_run u ops UseSet.init (wf_init _)) as [_ Hsub].
  apply Hsub, indexOf_spec in Hin as [_ Hn]. congruence.
Qed.

Lemma filter_absent (vs : JsSet.t) x :
  x ∉ vs → List.filter (λ y, negb (same_value_zero y x)) vs = vs.
Proof.
  intros H. apply (delete_absent vs x). now apply has_not_elem.
Qed.

Lemma filter_snoc_absent (vs : JsSet.t) x :
  x ∉ vs → List.filter (λ y, negb (same_value_zero y x)) (vs ++ [x]) = vs.
Proof.
  intros H. rewrite List.filter_app, filter_absent by assumption. simpl.
  replace (same_value_zero x x) with true
    by (symmetry; now apply same_value_zero_true).
  simpl. apply app_nil_r.
Qed.

Lemma remove_add_absent items x st :
  UseSet.has x st = false →
  values (UseSet.remove x (UseSet.add items x st)) = values st
  ∧ updated (UseSet.remove x (UseSet.add items x st))
    = updated st + (if is_candidate items x then 2 else 0).
Proof.
  intros Hh. pose proof Hh as Hni. apply has_not_elem in Hni.
  unfold is_candidate, UseSet.add, UseSet.has in *.
  destruct (indexOf items x =? -1); simpl.
  - rewrite remove_absent by assumption. split; [reflexivity | lia].
  - unfold UseSet.remove, JsSet.delete, JsSet.add. simpl. rewrite Hh.
    replace (JsSet.has (values st ++ [x]) x) with true.
    + simpl. split; [now apply filter_snoc_absent | lia].
    + symmetry. apply has_elem, elem_of_app. right.
      now apply list_elem_of_singleton.
Qed.

(** X3.  Removing an item right after adding it gives back the selection
    set as it was, in the same order, provided the item was not selected
    before; the counter has moved by two for a candidate and not at all
    otherwise. *)
Theorem remove_after_add items x st :
  UseSet.has x st = false →
  values (UseSet.remove x (UseSet.add items x st)) = values st
  ∧ updated (UseSet.remove x (UseSet.add items x st))
    = updated st + (if is_candidate items x then 2 else 0).
Proof.
  intros Hh. pose proof Hh as Hni. apply has_not_elem in Hni.
  unfold is_candidate, UseSet.add, UseSet.has in *.
  destruct (indexOf items x =? -1); simpl.
  - rewrite remove_absent by assumption. split; [reflexivity | lia].
  - unfold UseSet.remove, JsSet.delete, JsSet.add. simpl. rewrite Hh.
    replace (JsSet.has (values st ++ [x]) x) with true.
    + simpl. split; [now apply filter_snoc_absent | lia].
    + symmetry. apply has_elem, elem_of_app. right.
      now apply list_elem_of_singleton.
Qed.

Lemma remove_after_add_witness :
  UseSet.has Scenario.b (UseSet.add [Scenario.a; Scenario.b] Scenario.a UseSet.init)
  = false
  ∧ values (UseSet.remove Scenario.b
              (UseSet.add [Scenario.a; Scenario.b] Scenario.b
                 (UseSet.add [Scenario.a; Scenario.b] Scenario.a UseSet.init)))
    = [Scenario.a].
Proof.
  assert (H : UseSet.has Scenario.b
                (UseSet.add [Scenario.a; Scenario.b] Scenario.a UseSet.init) = false)
    by reflexivity.
  split; [exact H|].
  exact (proj1 (remove_after_add [Scenario.a; Scenario.b] Scenario.b _ H)).
Defined.

(** X4.  Toggling an item twice keeps the same items selected, but not
    always in the same order: an item that was selected is selected again
    as the last one.  The counter moves by two when the item is selected or
    a candidate, and not at all otherwise. *)
Theorem toggle_twice items x st :
  wf items st →
  let st2 := UseSet.toggle items x (UseSet.toggle items x st) in
  (∀ y, y ∈ values st2 ↔ y ∈ values st)
  ∧ values st2
    = (if UseSet.has x st then (JsSet.delete (values st) x).1 ++ [x]
       else values st)
  ∧ updated st2
    = updated st + (if UseSet.has x st || is_candidate items x then 2 else 0).
Proof.
  intros [Hnd Hsub] st2.
  assert (Hv : values st2
               = (if UseSet.has x st then (JsSet.delete (values st) x).1 ++ [x]
                  else values st)
             ∧ updated st2
               = updated st
                 + (if UseSet.has x st || is_candidate items x then 2 else 0)).
  { subst st2. destruct (UseSet.has x st) eqn:Hh.
    - assert (Hc : indexOf items x ≠ -1) by (apply Hsub; now apply has_elem).
      assert (Hr : UseSet.has x (UseSet.remove x st) = false).
      { apply has_not_elem. unfold UseSet.remove, UseSet.has in *.
        simpl. rewrite Hh. simpl. intros [_ Hne]%(delete_elem (values st) x x).
        congruence. }
      assert (E1 : UseSet.toggle items x st = UseSet.remove x st)
        by (unfold UseSet.toggle; now rewrite Hh).
      assert (E2 : UseSet.toggle items x (UseSet.remove x st)
                   = UseSet.add items x (UseSet.remove x st))
        by (unfold UseSet.toggle; now rewrite Hr).
      rewrite E1, E2, values_add, updated_add, updated_remove, Hr, Hh.
      apply Z.eqb_neq in Hc. rewrite Hc. simpl.
      unfold UseSet.remove, UseSet.has in *. simpl. rewrite Hh. simpl.
      split; [reflexivity | lia].
    - assert (E1 : UseSet.toggle items x st = UseSet.add items x st)
        by (unfold UseSet.toggle; now rewrite Hh).
      rewrite E1. simpl orb.
      destruct (is_candidate items x) eqn:Hc.
      + assert (Ha : UseSet.has x (UseSet.add items x st) = true).
        { apply has_elem, mem_add. right.
          apply is_candidate_spec in Hc. tauto. }
        assert (E2 : UseSet.toggle items x (UseSet.add items x st)
                     = UseSet.remove x (UseSet.add items x st))
          by (unfold UseSet.toggle; now rewrite Ha).
        rewrite E2. destruct (remove_add_absent items x st Hh) as [-> ->].
        now rewrite Hc.
      + unfold is_candidate in Hc. apply negb_false_iff in Hc.
        assert (E0 : UseSet.add items x st = st)
          by (unfold UseSet.add; now rewrite Hc).
        rewrite E0, E1, E0. split; [reflexivity | lia]. }
  destruct Hv as [Hv Hu]. split; [|split; assumption].
  intros y. rewrite Hv. destruct (UseSet.has x st) eqn:Hh; [|tauto].
  apply has_elem in Hh. rewrite elem_of_app, list_elem_of_singleton, delete_elem.
  destruct (decide (y = x)) as [->|]; tauto.
Qed.

Lemma toggle_twice_witness :
  let items := [Scenario.a; Scenario.b] in
  let st := UseSet.add items Scenario.b (UseSet.add items Scenario.a UseSet.init) in
  wf items st
  ∧ values st = [Scenario.a; Scenario.b]
  ∧ values (UseSet.toggle items Scenario.a (UseSet.toggle items Scenario.a st))
    = [Scenario.b; Scenario.a].
Proof.
  intros items st.
  assert (Hwf : wf items st) by apply wf_add, wf_add, wf_init.
  split; [exact Hwf|]. split; [reflexivity|].
  etransitivity; [exact (proj1 (proj2 (toggle_twice items Scenario.a st Hwf)))|].
  reflexivity.
Defined.

(** ** The counter as a version stamp *)

Lemma updated_run_le u ops st : updated st ≤ updated (run u ops st).
Proof.
  unfold run. revert st. induction ops as [|o ops IH]; intros st; simpl; [lia|].
  specialize (IH (exec u o st)).
  pose proof (updated_exec_bounds u o st). lia.
Qed.

(** X5.  The counter is a sound version stamp: if it reads the same after a
    sequence of calls as before it, the selection set is unchanged, order
    included. *)
Theorem counter_is_version_stamp u ops st :
  updated (run u ops st) = updated st → run u ops st = st.
Proof.
  unfold run. revert st. induction ops as [|o ops IH]; intros st H; simpl in *.
  - reflexivity.
  - pose proof (updated_exec_bounds u o st) as [Hlo _].
    pose proof (updated_run_le u ops (exec u o st)) as Hle. unfold run in Hle.
    assert (He : exec u o st = st) by (apply exec_same_counter; lia).
    rewrite He in *. now apply IH.
Qed.

Lemma counter_is_version_stamp_witness :
  let u := Scenario.controller true in
  let st := UseSet.add (items u) Scenario.a UseSet.init in
  let ops := [Toggle Scenario.stale; Remove Scenario.b; SetItems [Scenario.a]] in
  updated (run u ops st) = updated st ∧ run u ops st = st.
Proof.
  intros u st ops.
  assert (H : updated (run u ops st) = updated st) by reflexivity.
  split; [exact H | exact (counter_is_version_stamp u ops st H)].
Defined.

(** ** select and setItems *)

Lemma select_multiple_absent u x st :
  multiple u = true → x ∉ values st →
  select u x st
  = if is_candidate (items u) x
    then {| values := values st ++ [x]; updated := updated st + 1 |}
    else st.
Proof.
  intros Hm Hx. apply has_not_elem in Hx.
  unfold select, UseSet.toggle, UseSet.has, UseSet.add, is_candidate, JsSet.add.
  rewrite Hm, Hx. now destruct (indexOf (items u) x =? -1).
Qed.

Lemma select_all_multiple u its st :
  multiple u = true → NoDup its → (∀ x, x ∈ its → x ∉ values st) →
  fold_left (λ st i, select u i st) its st
  = {| values := values st ++ List.filter (is_candidate (items u)) its;
       updated := updated st
                  + Z.of_nat (length (List.filter (is_candidate (items u)) its)) |}.
Proof.
  intros Hm. revert st. induction its as [|x its IH]; intros st Hnd Hfresh.
  - simpl. rewrite app_nil_r, Z.add_0_r. symmetry. apply state_eta.
  - apply NoDup_cons in Hnd as [Hx Hnd]. simpl fold_left.
    assert (Hxs : x ∉ values st) by (apply Hfresh, elem_of_cons; now left).
    rewrite (select_multiple_absent u x st Hm Hxs). simpl List.filter.
    destruct (is_candidate (items u) x).
    + rewrite IH; [|assumption|].
      * simpl. rewrite <- app_assoc. f_equal. lia.
      * simpl. intros y Hy [Hin| ->%list_elem_of_singleton]%elem_of_app.
        -- eapply Hfresh; [apply elem_of_cons; right; exact Hy | exact Hin].
        -- contradiction.
    + apply IH; [assumption|]. intros y Hy. apply Hfresh, elem_of_cons. now right.
Qed.

Lemma filter_all_true {A} (f : A → bool) l :
  (∀ x, x ∈ l → f x = true) → List.filter f l = l.
Proof.
  induction l as [|x l IH]; intros H; simpl; [reflexivity|].
  rewrite H by (apply elem_of_cons; now left). f_equal.
  apply IH. intros y Hy. apply H, elem_of_cons. now right.
Qed.

Lemma setItems_multiple_changed u its st :
  multiple u = true → NoDup its → UseSet.equals its st = false →
  setItems u its st
  = {| values := List.filter (is_candidate (items u)) its;
       updated := updated st + 1
                  + Z.of_nat (length (List.filter (is_candidate (items u)) its)) |}.
Proof.
  intros Hm Hnd He. unfold setItems. rewrite He.
  rewrite select_all_multiple; [reflexivity | assumption | assumption |].
  intros x _ Hx. now apply elem_of_nil in Hx.
Qed.

(** X6.  In multiple mode, [setItems] of a duplicate-free list that does
    not pass [equals] leaves exactly the candidates among the list
    selected, in the order of the list, and bumps the counter once for the
    clear and once more for each of them. *)
Theorem setItems_multiple u its st :
  multiple u = true → NoDup its → UseSet.equals its st = false →
  setItems u its st
  = {| values := List.filter (is_candidate (items u)) its;
       updated := updated st + 1
                  + Z.of_nat (length (List.filter (is_candidate (items u)) its)) |}.
Proof.
  intros Hm Hnd He. unfold setItems. rewrite He.
  rewrite select_all_multiple; [reflexivity | assumption | assumption |].
  intros x _ Hx. now apply elem_of_nil in Hx.
Qed.

Lemma setItems_multiple_witness :
  let u := Scenario.controller true in
  let st := UseSet.add (items u) Scenario.a UseSet.init in
  let its := [Scenario.b; Scenario.stale; Scenario.a] in
  multiple u = true ∧ NoDup its ∧ UseSet.equals its st = false
  ∧ setItems u its st = {| values := [Scenario.b; Scenario.a]; updated := 4 |}.
Proof.
  intros u st its.
  assert (Hm : multiple u = true) by reflexivity.
  assert (Hnd : NoDup its).
  { apply NoDup_ListNoDup. repeat constructor; simpl; intuition discriminate. }
  assert (He : UseSet.equals its st = false) by reflexivity.
  split; [exact Hm|]. split; [exact Hnd|]. split; [exact He|].
  etransitivity; [exact (setItems_multiple u its st Hm Hnd He) | reflexivity].
Defined.

(** X7.  In multiple mode, [setItems] of a duplicate-free list of
    candidates is idempotent: a second call with the same list finds
    [equals] true and changes neither the set nor the counter. *)
Theorem setItems_idempotent u its st :
  multiple u = true → NoDup its →
  (∀ x, x ∈ its → is_candidate (items u) x = true) →
  setItems u its (setItems u its st) = setItems u its st.
Proof.
  intros Hm Hnd Hc. destruct (UseSet.equals its st) eqn:He.
  - unfold setItems. now rewrite He, He.
  - rewrite (setItems_multiple_changed u its st Hm Hnd He).
    rewrite (filter_all_true _ _ Hc). unfold setItems.
    replace (UseSet.equals its _) with true; [reflexivity|].
    symmetry. apply equals_spec. simpl. auto.
Qed.

Lemma setItems_idempotent_witness :
  let u := Scenario.controller true in
  let its := [Scenario.b; Scenario.a] in
  multiple u = true ∧ NoDup its
  ∧ setItems u its UseSet.init = {| values := [Scenario.b; Scenario.a]; updated := 3 |}
  ∧ setItems u its (setItems u its UseSet.init) = setItems u its UseSet.init.
Proof.
  intros u its.
  assert (Hm : multiple u = true) by reflexivity.
  assert (Hnd : NoDup its).
  { apply NoDup_ListNoDup. repeat constructor; simpl; intuition discriminate. }
  assert (Hc : ∀ x, x ∈ its → is_candidate (items u) x = true).
  { intros x Hx. apply elem_of_cons in Hx as [->|Hx]; [reflexivity|].
    apply elem_of_cons in Hx as [->|Hx]; [reflexivity|].
    now apply elem_of_nil in Hx. }
  split; [exact Hm|]. split; [exact Hnd|]. split; [reflexivity|].
  exact (setItems_idempotent u its UseSet.init Hm Hnd Hc).
Defined.

(** X8.  A list that holds an item [indexOf] does not find never passes
    [equals], so [setItems] of such a list bumps the counter on every call,
    in either mode. *)
Theorem setItems_stale_always_bumps u its x st :
  wf (items u) st → x ∈ its → is_candidate (items u) x = false →
  UseSet.equals its st = false ∧ updated st < updated (setItems u its st).
Proof.
  intros [_ Hsub] Hx Hc.
  assert (He : UseSet.equals its st = false).
  { destruct (UseSet.equals its st) eqn:He; [|reflexivity].
    apply equals_spec in He as [_ He]. apply He, Hsub in Hx.
    unfold is_candidate in Hc. apply negb_false_iff, Z.eqb_eq in Hc. congruence. }
  split; [exact He|]. unfold setItems. rewrite He.
  pose proof (updated_select_all_bounds u its (UseSet.clear st)) as H.
  rewrite updated_clear in H. lia.
Qed.

Lemma setItems_stale_always_bumps_witness :
  let u := Scenario.controller true in
  let its := [Scenario.a; Scenario.stale] in
  let st := setItems u its UseSet.init in
  wf (items u) st ∧ Scenario.stale ∈ its
  ∧ is_candidate (items u) Scenario.stale = false
  ∧ values (setItems u its st) = values st
  ∧ updated st < updated (setItems u its st).
Proof.
  intros u its st.
  assert (Hwf : wf (items u) st) by apply wf_setItems, wf_init.
  assert (Hx : Scenario.stale ∈ its).
  { apply elem_of_cons. right. apply elem_of_cons. now left. }
  assert (Hc : is_candidate (items u) Scenario.stale = false) by reflexivity.
  split; [exact Hwf|]. split; [exact Hx|]. split; [exact Hc|].
  split; [reflexivity|].
  exact (proj2 (setItems_stale_always_bumps u its Scenario.stale st Hwf Hx Hc)).
Defined.

(** ** Single mode *)

Lemma select_single_result u x st :
  multiple u = false →
  select u x st
  = {| values := if is_candidate (items u) x then [x] else [];
       updated := updated st + (if is_candidate (items u) x then 2 else 1) |}.
Proof.
  intros Hm. unfold select, UseSet.add, is_candidate. rewrite Hm.
  destruct (indexOf (items u) x =? -1); simpl; [reflexivity|].
  unfold UseSet.forceUpdate. simpl. f_equal. lia.
Qed.

Lemma select_single_length u x st :
  multiple u = false → (length (values (select u x st)) ≤ 1)%nat.
Proof.
  intros Hm. rewrite select_single_result by assumption. simpl.
  destruct (is_candidate (items u) x); simpl; lia.
Qed.

Lemma select_all_single_length u its st :
  multiple u = false → (length (values st) ≤ 1)%nat →
  (length (values (fold_left (λ st i, select u i st) its st)) ≤ 1)%nat.
Proof.
  intros Hm. revert st. induction its as [|x its IH]; intros st H; simpl.
  - exact H.
  - apply IH. now apply select_single_length.
Qed.

Lemma exec_single_length u o st :
  multiple u = false → replaces o = true →
  (length (values st) ≤ 1)%nat → (length (values (exec u o st)) ≤ 1)%nat.
Proof.
  intros Hm Ho H.
  assert (Hs : ∀ its, (length (values (setItems u its st)) ≤ 1)%nat).
  { intros its. unfold setItems. destruct (UseSet.equals its st); [exact H|].
    apply select_all_single_length; [assumption | simpl; lia]. }
  destruct o as [item|item|item| |item|its|vs]; cbn [exec]; try discriminate.
  - unfold UseSet.remove, JsSet.delete.
    pose proof (List.filter_length_le
                  (λ y, negb (same_value_zero y item)) (values st)) as Hl.
    destruct (JsSet.has (values st) item); simpl; lia.
  - simpl. lia.
  - now apply select_single_length.
  - apply Hs.
  - apply Hs.
Qed.

(** X9.  In single mode at most one item is selected after every sequence
    of [select], [setItems], [setValues], [remove] and [clear] calls.  Only
    the tracker's own [add] and [toggle], which the controller also hands
    out, can select a second one. *)
Theorem single_mode_cardinality u ops :
  multiple u = false → forallb replaces ops = true →
  (length (values (run u ops UseSet.init)) ≤ 1)%nat.
Proof.
  intros Hm. unfold run.
  assert (H0 : (length (values UseSet.init) ≤ 1)%nat) by (simpl; lia).
  revert H0. generalize UseSet.init.
  induction ops as [|o ops IH]; intros st H Hops; simpl in *; [exact H|].
  apply andb_true_iff in Hops as [Ho Hops].
  apply IH; [|exact Hops]. now apply exec_single_length.
Qed.

Lemma single_mode_cardinality_witness :
  let u := Scenario.controller false in
  let ops := [SelectItem Scenario.a; SetItems [Scenario.a; Scenario.b];
              SetValues (Many [VNum (Int 1)]); SelectItem Scenario.b] in
  multiple u = false ∧ forallb replaces ops = true
  ∧ values (run u ops UseSet.init) = [Scenario.b]
  ∧ (length (values (run u ops UseSet.init)) ≤ 1)%nat
  ∧ values (run u [SelectItem Scenario.a; Add Scenario.b] UseSet.init)
    = [Scenario.a; Scenario.b].
Proof.
  intros u ops.
  assert (Hm : multiple u = false) by reflexivity.
  assert (Ho : forallb replaces ops = true) by reflexivity.
  split; [exact Hm|]. split; [exact Ho|]. split; [reflexivity|].
  split; [exact (single_mode_cardinality u ops Hm Ho) | reflexivity].
Defined.

(** X10.  In single mode, [setItems] of a list that does not pass [equals]
    selects the last entry of the list if it is a candidate and nothing
    otherwise, whatever the entries before it are. *)
Theorem setItems_single_last u its x st :
  multiple u = false → UseSet.equals (its ++ [x]) st = false →
  values (setItems u (its ++ [x]) st)
  = if is_candidate (items u) x then [x] else [].
Proof.
  intros Hm He. unfold setItems. rewrite He, fold_left_app. simpl.
  now rewrite select_single_result.
Qed.

Lemma setItems_single_last_witness :
  let u := Scenario.controller false in
  multiple u = false
  ∧ UseSet.equals ([Scenario.a] ++ [Scenario.stale]) (select u Scenario.a UseSet.init)
    = false
  ∧ values (setItems u ([Scenario.a] ++ [Scenario.stale])
              (select u Scenario.a UseSet.init)) = [].
Proof.
  intros u.
  assert (Hm : multiple u = false) by reflexivity.
  assert (He : UseSet.equals ([Scenario.a] ++ [Scenario.stale])
                 (select u Scenario.a UseSet.init) = false) by reflexivity.
  split; [exact Hm|]. split; [exact He|].
  etransitivity;
    [exact (setItems_single_last u [Scenario.a] Scenario.stale _ Hm He)|].
  reflexivity.
Defined.

(** ** Building and reading the value index *)

Lemma lookup_entries_other es m k :
  (∀ e, e ∈ es → e.1 ≠ k) →
  JsMap.lookup (fold_left (λ m e, JsMap.set m e.1 e.2) es m) k = JsMap.lookup m k.
Proof.
  revert m. induction es as [|[k0 v0] es IH]; intros m H; simpl; [reflexivity|].
  rewrite IH by (intros e He; apply H, elem_of_cons; now right).
  rewrite lookup_set. simpl.
  replace (same_value_zero k0 k) with false; [reflexivity|].
  symmetry. apply same_value_zero_false.
  apply (H (k0, v0)), elem_of_cons. now left.
Qed.

Lemma entries_of h p (its : list value) es :
  mapM (λ i, v ← getValue h p i; mret (v, i)) its = Ok es →
  Forall2 (λ i e, getValue h p i = Ok e.1 ∧ e.2 = i) its es.
Proof.
  intros H. apply mapM_Ok in H.
  induction H as [|i e its es Hi _ IH]; constructor; [|assumption].
  apply bind_Ok in Hi as (v & Hv & Hi). injection Hi as <-. now split.
Qed.

(** X11.  When several candidates have the same value, the index answers
    with the last of them in the candidate list. *)
Theorem value_index_last_wins h p its1 x its2 m v :
  value_index h p (its1 ++ x :: its2) = Ok m →
  getValue h p x = Ok v →
  (∀ y, y ∈ its2 → getValue h p y ≠ Ok v) →
  JsMap.lookup m v = Some x.
Proof.
  unfold value_index. intros H Hx Hlast.
  apply bind_Ok in H as (es & Hes & H). injection H as <-.
  apply entries_of in Hes.
  apply Forall2_app_inv_l in Hes as (es1 & es' & _ & Hes' & ->).
  apply Forall2_cons_inv_l in Hes' as ([v' x'] & es2 & [Hv' Hx'] & Hes2 & ->).
  simpl in Hv', Hx'. subst x'. rewrite Hx in Hv'. injection Hv' as <-.
  unfold JsMap.of_entries. rewrite fold_left_app. simpl.
  rewrite lookup_entries_other.
  - rewrite lookup_set.
    replace (same_value_zero v v) with true; [reflexivity|].
    symmetry. now apply same_value_zero_true.
  - intros e He Hk. clear -Hes2 He Hk Hlast.
    induction Hes2 as [|i e' its es [Hi He'] _ IH]; [now apply elem_of_nil in He|].
    apply elem_of_cons in He as [->|He].
    + apply (Hlast i); [apply elem_of_cons; now left | congruence].
    + apply IH; [|exact He]. intros y Hy. apply Hlast, elem_of_cons. now right.
Qed.

Lemma value_index_last_wins_witness :
  value_index Scenario.store (Field "value") ([] ++ Scenario.c :: [Scenario.d])
  = Ok [(VNum (Int 7), Scenario.d)]
  ∧ getValue Scenario.store (Field "value") Scenario.d = Ok (VNum (Int 7))
  ∧ JsMap.lookup [(VNum (Int 7), Scenario.d)] (VNum (Int 7)) = Some Scenario.d.
Proof.
  assert (H : value_index Scenario.store (Field "value")
                ([Scenario.c] ++ Scenario.d :: [])
              = Ok [(VNum (Int 7), Scenario.d)]) by reflexivity.
  assert (Hv : getValue Scenario.store (Field "value") Scenario.d
               = Ok (VNum (Int 7))) by reflexivity.
  assert (Hl : ∀ y, y ∈ @nil value →
                    getValue Scenario.store (Field "value") y ≠ Ok (VNum (Int 7))).
  { intros y Hy. now apply elem_of_nil in Hy. }
  split; [reflexivity|]. split; [exact Hv|].
  exact (value_index_last_wins Scenario.store (Field "value") [Scenario.c]
           Scenario.d [] _ _ H Hv Hl).
Defined.



Lemma bind_Throw {A B} (r : result A) (k : A → result B) e :
  (r ≫= k) = Throw e → r = Throw e ∨ ∃ a, r = Ok a ∧ k a = Throw e.
Proof. destruct r as [a|e']; simpl; [eauto | intros [= ->]; now left]. Qed.



(** X13.  Once the index is built, a value has no entry in it exactly when
    no candidate projects to that value; an entry always holds a candidate
    that projects to it. *)
Theorem value_index_lookup h p its m v :
  value_index h p its = Ok m →
  (JsMap.lookup m v = None ↔ ∀ i, i ∈ its → getValue h p i ≠ Ok v)
  ∧ (∀ i, JsMap.lookup m v = Some i → i ∈ its ∧ getValue h p i = Ok v).
Proof.
  intros H. split.
  - split.
    + intros Hn i Hi Hv.
      destruct (value_index_complete _ _ _ _ _ _ H Hi Hv) as [j Hj]. congruence.
    + intros Hall. destruct (JsMap.lookup m v) as [i|] eqn:E; [|reflexivity].
      destruct (value_index_sound _ _ _ _ _ _ H E) as [Hi Hv].
      exfalso. exact (Hall i Hi Hv).
  - intros i. apply value_index_sound. exact H.
Qed.

Lemma value_index_lookup_witness :
  value_index Scenario.store (Field "value") [Scenario.a; Scenario.b]
  = Ok [(VNum (Int 1), Scenario.a); (VNum (Int 2), Scenario.b)]
  ∧ (∀ i, i ∈ [Scenario.a; Scenario.b] →
          getValue Scenario.store (Field "value") i ≠ Ok (VNum (Int 99))).
Proof.
  assert (H : value_index Scenario.store (Field "value") [Scenario.a; Scenario.b]
              = Ok [(VNum (Int 1), Scenario.a); (VNum (Int 2), Scenario.b)])
    by reflexivity.
  split; [exact H|].
  apply (proj1 (value_index_lookup Scenario.store (Field "value") _ _
                  (VNum (Int 99)) H)).
  reflexivity.
Defined.

(** ** What setValues resolves to *)

Lemma resolve_candidates h u mv x :
  value_index h (itemValue u) (items u) = Ok (itemMap u) →
  x ∈ resolve u mv →
  x ∈ items u ∧ truthy x = true ∧ is_candidate (items u) x = true
  ∧ ∃ v, v ∈ to_array mv ∧ getValue h (itemValue u) x = Ok v.
Proof.
  intros Hidx Hx. unfold resolve in Hx.
  apply list_elem_of_In, filter_In in Hx as [Hx Ht].
  apply list_elem_of_In, list_elem_of_fmap in Hx as (v & -> & Hv).
  unfold JsMap.get in *.
  destruct (JsMap.lookup (itemMap u) v) as [i|] eqn:E; simpl in *; [|discriminate].
  destruct (value_index_sound _ _ _ _ _ _ Hidx E) as [Hi Hg].
  split; [exact Hi|]. split; [exact Ht|]. split; [|eauto].
  apply is_candidate_spec. split; [exact Hi|]. intros ->. discriminate.
Qed.

(** X14.  Whatever is passed to [setValues], the items it hands on to
    [setItems] are truthy candidates that [indexOf] finds, each projecting
    to one of the values passed. *)
Theorem setValues_resolves_to_candidates h options u st0 mv x :
  useSelect h options = Ok (u, st0) →
  x ∈ resolve u mv →
  x ∈ items u ∧ truthy x = true ∧ is_candidate (items u) x = true
  ∧ ∃ v, v ∈ to_array mv ∧ getValue h (itemValue u) x = Ok v.
Proof.
  intros Hb. apply useSelect_inv in Hb as [Hidx _].
  now apply resolve_candidates.
Qed.

Lemma setValues_resolves_to_candidates_witness :
  let u := Scenario.controller true in
  let mv := Many [VNum (Int 2); VNum (Int 99)] in
  resolve u mv = [Scenario.b]
  ∧ Scenario.b ∈ items u
  ∧ ∃ v, v ∈ to_array mv ∧ getValue Scenario.store (itemValue u) Scenario.b = Ok v.
Proof.
  intros u mv.
  assert (Hx : Scenario.b ∈ resolve u mv) by (apply elem_of_cons; now left).
  destruct (setValues_resolves_to_candidates Scenario.store (Scenario.options true)
              u (Scenario.initial true) mv Scenario.b (scenario_built true) Hx)
    as (Hi & _ & _ & Hv).
  split; [reflexivity|]. split; [exact Hi | exact Hv].
Defined.

(** X15.  A controller over an empty candidate list stays empty: no
    sequence of calls selects anything. *)
Theorem empty_candidates_stay_empty u ops :
  items u = [] → values (run u ops UseSet.init) = [].
Proof.
  intros He. destruct (wf_run u ops UseSet.init (wf_init _)) as [_ Hsub].
  destruct (values (run u ops UseSet.init)) as [|x vs]; [reflexivity|].
  exfalso. apply (Hsub x); [apply elem_of_cons; now left|].
  now rewrite He.
Qed.

Lemma empty_candidates_stay_empty_witness :
  let u := {| items := []; cols := 1; multiple := true;
              itemText := Field "text"; itemValue := Field "value";
              itemMap := []; itemRows := [] |} in
  items u = []
  ∧ values (run u [SetValues (Many [VNum (Int 1)]); SelectItem Scenario.a;
                   Add Scenario.b] UseSet.init) = [].
Proof.
  intros u. assert (He : items u = []) by reflexivity.
  split; [exact He|]. exact (empty_candidates_stay_empty u _ He).
Defined.

(** ** The derived views in reachable states *)

Lemma mapM_Ok_intro {A B} (f : A → result B) l :
  (∀ x, x ∈ l → ∃ y, f x = Ok y) → ∃ ys, mapM f l = Ok ys.
Proof.
  induction l as [|x l IH]; intros H; [now exists []|].
  destruct (H x) as [y Hy]; [apply elem_of_cons; now left|].
  destruct IH as [ys Hys]; [intros z Hz; apply H, elem_of_cons; now right|].
  exists (y :: ys). cbn [mapM]. now rewrite Hy, Hys.
Qed.

Lemma candidate_value h p its m x :
  value_index h p its = Ok m → x ∈ its → ∃ v, getValue h p x = Ok v.
Proof.
  unfold value_index. intros H Hx.
  apply bind_Ok in H as (es & Hes & _). apply entries_of in Hes.
  induction Hes as [|i e its es [Hi _] _ IH]; [now apply elem_of_nil in Hx|].
  apply elem_of_cons in Hx as [->|Hx]; eauto.
Qed.

Lemma join_Ok h sep (texts : list value) :
  (∀ t, t ∈ texts → ∃ str, to_str h t = Ok str) →
  ∃ str, join h sep texts = Ok str.
Proof.
  intros H. destruct (mapM_Ok_intro (to_str h) texts H) as [parts Hp].
  unfold join. rewrite Hp. simpl. eauto.
Qed.

Lemma recompute_multiple h u st :
  multiple u = true →
  (∀ i, i ∈ values (s st) → ∃ v, getValue h (itemValue u) i = Ok v) →
  (∀ i, i ∈ values (s st) →
        ∃ t str, getText h (itemText u) i = Ok t ∧ to_str h t = Ok str) →
  ∃ st', recompute h u st = Ok st'
         ∧ s st' = s st ∧ watched st' = watched st
         ∧ derived h u (s st) (selected st') (selectedStr st').
Proof.
  intros Hm Hval Htext.
  destruct (mapM_Ok_intro (getValue h (itemValue u)) (values (s st)) Hval)
    as [vs Hvs].
  destruct (mapM_Ok_intro (getText h (itemText u)) (values (s st))) as [ts Hts].
  { intros x Hx. destruct (Htext x Hx) as (t & _ & Ht & _). eauto. }
  destruct (join_Ok h "," ts) as [str Hstr].
  { intros t Ht. pose proof (mapM_Ok _ _ _ Hts) as Hf.
    clear -Hf Ht Htext. induction Hf as [|x t' xs ts Hx _ IH].
    - now apply elem_of_nil in Ht.
    - apply elem_of_cons in Ht as [->|Ht].
      + destruct (Htext x) as (t0 & str & H0 & Hs); [apply elem_of_cons; now left|].
        rewrite Hx in H0. injection H0 as <-. eauto.
      + apply IH; [|exact Ht]. intros i Hi. apply Htext, elem_of_cons. now right. }
  eexists. unfold recompute. rewrite Hm, Hvs. simpl. rewrite Hts. simpl.
  rewrite Hstr. simpl.
  split; [reflexivity|]. split; [reflexivity|]. split; [reflexivity|].
  exists vs, ts. auto.
Qed.

Lemma recompute_derived h u st st' :
  multiple u = true → recompute h u st = Ok st' →
  derived h u (s st) (selected st') (selectedStr st').
Proof.
  intros Hm H. unfold recompute in H. rewrite Hm in H.
  apply bind_Ok in H as (sel & Hsel & H). apply bind_Ok in H as (ts & Hts & H).
  apply bind_Ok in H as (str & Hstr & H).
  apply bind_Ok in Hsel as (vs & Hvs & Hsel).
  injection Hsel as <-. injection H as <-. simpl. exists vs, ts. auto.
Qed.

Lemma reachable_derived h options u st :
  reachable h options u st → multiple u = true →
  watched st = updated (s st) →
  derived h u (s st) (selected st) (selectedStr st).
Proof.
  intros Hr Hm.
  induction Hr as [u st Hb | u o st Hr IH | u st st' Hr IH Hf]; intros Hw.
  - apply useSelect_inv in Hb as [_ ->]. simpl. rewrite Hm.
    exists [], []. auto.
  - destruct (reachable_consistent _ _ _ _ Hr) as (_ & Hle & _).
    pose proof (updated_exec_bounds u o (s st)) as [Hlo _].
    cbn [call s selected selectedStr watched] in *.
    assert (He : exec u o (s st) = s st) by (apply exec_same_counter; lia).
    rewrite He in *. auto.
  - unfold flush in Hf. destruct (updated (s st) =? watched st) eqn:E.
    + injection Hf as <-. auto.
    + apply bind_Ok in Hf as (st1 & Hrc & Hf). injection Hf as <-.
      pose proof (recompute_derived _ _ _ _ Hm Hrc) as Hd.
      apply recompute_inv in Hrc as (Hs & _). simpl. now rewrite Hs.
Qed.

(** X16.  In multiple mode, when the text of every candidate can be read
    and converted to a string, the watcher never throws in a reachable
    state: a run succeeds, leaves the tracker alone, is up to date
    afterwards, and leaves in [selected] the values of the selected items
    and in [selectedStr] their texts, converted as [join] converts them and
    joined by commas, both in insertion order. *)
Theorem flush_multiple_succeeds h options u st :
  reachable h options u st → multiple u = true →
  (∀ i, i ∈ items u →
        ∃ t str, getText h (itemText u) i = Ok t ∧ to_str h t = Ok str) →
  ∃ st', flush h u st = Ok st'
         ∧ s st' = s st ∧ watched st' = updated (s st)
         ∧ derived h u (s st) (selected st') (selectedStr st').
Proof.
  intros Hr Hm Ht.
  destruct (reachable_consistent _ _ _ _ Hr) as ([_ Hsub] & _ & Hidx & _).
  unfold flush. destruct (updated (s st) =? watched st) eqn:E.
  - apply Z.eqb_eq in E. exists st. split; [reflexivity|].
    split; [reflexivity|]. split; [congruence|].
    apply (reachable_derived _ _ _ _ Hr Hm). congruence.
  - destruct (recompute_multiple h u st Hm) as (st1 & Hrc & Hs & _ & Hd).
    { intros i Hi. apply (candidate_value _ _ _ _ _ Hidx).
      now apply indexOf_candidate, Hsub. }
    { intros i Hi. now apply Ht, indexOf_candidate, Hsub. }
    rewrite Hrc. simpl. eexists. split; [reflexivity|]. simpl.
    split; [exact Hs|]. split; [reflexivity | exact Hd].
Qed.

Lemma flush_multiple_succeeds_witness :
  let u := Scenario.controller true in
  let st := call u (SelectItem Scenario.b)
              (call u (SelectItem Scenario.a) (Scenario.initial true)) in
  reachable Scenario.store (Scenario.options true) u st
  ∧ multiple u = true
  ∧ ∃ st', flush Scenario.store u st = Ok st'
           ∧ s st' = s st ∧ watched st' = 2
           ∧ derived Scenario.store u (s st) (selected st') (selectedStr st').
Proof.
  intros u st.
  assert (Hr : reachable Scenario.store (Scenario.options true) u st)
    by apply reach_call, reach_call, reach_init, scenario_built.
  assert (Hm : multiple u = true) by reflexivity.
  assert (Ht : ∀ i, i ∈ items u →
                    ∃ t str, getText Scenario.store (itemText u) i = Ok t
                             ∧ to_str Scenario.store t = Ok str).
  { intros i Hi. apply elem_of_cons in Hi as [->|Hi];
      [eexists _, _; split; reflexivity|].
    apply elem_of_cons in Hi as [->|Hi]; [eexists _, _; split; reflexivity|].
    now apply elem_of_nil in Hi. }
  split; [exact Hr|]. split; [exact Hm|].
  exact (flush_multiple_succeeds Scenario.store (Scenario.options true) u st Hr Hm Ht).
Defined.

(** X17.  In multiple mode, in a reachable state in which the watcher is up
    to date, [isEmpty] is true exactly when no item is selected. *)
Theorem isEmpty_multiple_reachable h options u st :
  reachable h options u st → multiple u = true →
  watched st = updated (s st) →
  isEmpty u st = true ↔ values (s st) = [].
Proof.
  intros Hr Hm Hw.
  destruct (reachable_consistent _ _ _ _ Hr) as (_ & _ & _ & Hsync).
  destruct (Hsync Hm Hw) as (vs & Hvs & Hsel).
  rewrite (isEmpty_multiple u st vs Hm Hsel).
  apply mapM_Ok, Forall2_length in Hvs.
  destruct vs, (values (s st)); simpl in Hvs; split; congruence.
Qed.

Lemma isEmpty_multiple_reachable_witness :
  let u := Scenario.controller true in
  let st := Scenario.initial true in
  reachable Scenario.store (Scenario.options true) u st
  ∧ multiple u = true ∧ watched st = updated (s st)
  ∧ isEmpty u st = true.
Proof.
  intros u st.
  assert (Hr : reachable Scenario.store (Scenario.options true) u st)
    by apply reach_init, scenario_built.
  assert (Hm : multiple u = true) by reflexivity.
  assert (Hw : watched st = updated (s st)) by reflexivity.
  split; [exact Hr|]. split; [exact Hm|]. split; [exact Hw|].
  apply (isEmpty_multiple_reachable Scenario.store (Scenario.options true) u st
           Hr Hm Hw).
  reflexivity.
Defined.

Lemma includes_elem l x : includes l x = true ↔ x ∈ l.
Proof. apply (has_elem l x). Qed.

(** X18.  In multiple mode, when the watcher is up to date and no two
    candidates have the same value, the controller's [has] (the
    [isSelected] of the slot) answers for every candidate other than [null]
    whether that candidate is in the selection set. *)
Theorem has_agrees_with_selection h options u st x :
  reachable h options u st → multiple u = true →
  watched st = updated (s st) →
  (∀ i j v, i ∈ items u → j ∈ items u →
            getValue h (itemValue u) i = Ok v →
            getValue h (itemValue u) j = Ok v → i = j) →
  x ∈ items u → x ≠ VNull →
  has h u x st = Ok (UseSet.has x (s st)).
Proof.
  intros Hr Hm Hw Hinj Hx Hnull.
  destruct (reachable_consistent _ _ _ _ Hr) as ([_ Hsub] & _ & Hidx & Hsync).
  destruct (Hsync Hm Hw) as (vs & Hvs & Hsel).
  destruct (candidate_value _ _ _ _ _ Hidx Hx) as [v Hv].
  assert (Hhas : has h u x st = Ok (includes vs v)).
  { unfold has. rewrite Hsel.
    destruct x; try congruence; simpl in *; now rewrite Hv. }
  rewrite Hhas. f_equal. apply mapM_Ok in Hvs.
  assert (Hiff : v ∈ vs ↔ x ∈ values (s st)).
  { assert (Hin : ∀ y, y ∈ values (s st) → y ∈ items u)
      by (intros y Hy; now apply indexOf_candidate, Hsub).
    clear -Hvs Hinj Hx Hv Hin.
    induction Hvs as [|y w ys ws Hy _ IH].
    - split; intros H; now apply elem_of_nil in H.
    - rewrite !elem_of_cons, IH
        by (intros z Hz; apply Hin, elem_of_cons; now right).
      assert (Hyin : y ∈ items u) by (apply Hin, elem_of_cons; now left).
      split; (intros [->|H]; [left | now right]).
      + symmetry. eauto.
      + congruence. }
  unfold UseSet.has.
  destruct (includes vs v) eqn:E1, (JsSet.has (values (s st)) x) eqn:E2;
    try reflexivity; exfalso.
  - apply includes_elem, Hiff, has_elem in E1. congruence.
  - apply has_elem, Hiff, includes_elem in E2. congruence.
Qed.

Lemma has_agrees_with_selection_witness :
  let u := Scenario.controller true in
  let st := {| s := {| values := [Scenario.b]; updated := 1 |};
               selected := Many [VNum (Int 2)]; selectedStr := "b";
               watched := 1 |} in
  reachable Scenario.store (Scenario.options true) u st
  ∧ has Scenario.store u Scenario.b st = Ok true
  ∧ has Scenario.store u Scenario.a st = Ok false.
Proof.
  intros u st.
  assert (Hr : reachable Scenario.store (Scenario.options true) u st).
  { apply (reach_flush _ _ _ (call u (SelectItem Scenario.b) (Scenario.initial true))).
    - apply reach_call, reach_init, scenario_built.
    - reflexivity. }
  assert (Hm : multiple u = true) by reflexivity.
  assert (Hw : watched st = updated (s st)) by reflexivity.
  assert (Hcases : ∀ i, i ∈ items u → i = Scenario.a ∨ i = Scenario.b).
  { intros i Hi. apply elem_of_cons in Hi as [Hi|Hi]; [now left|].
    apply elem_of_cons in Hi as [Hi|Hi]; [now right|].
    now apply elem_of_nil in Hi. }
  assert (Hinj : ∀ i j v, i ∈ items u → j ∈ items u →
                          getValue Scenario.store (itemValue u) i = Ok v →
                          getValue Scenario.store (itemValue u) j = Ok v → i = j).
  { intros i j v [-> | ->]%Hcases [-> | ->]%Hcases Hi Hj;
      vm_compute in Hi, Hj; congruence. }
  assert (Ha : Scenario.a ∈ items u) by (apply elem_of_cons; now left).
  assert (Hb : Scenario.b ∈ items u).
  { apply elem_of_cons. right. apply elem_of_cons. now left. }
  split; [exact Hr|]. split.
  - etransitivity;
      [exact (has_agrees_with_selection Scenario.store (Scenario.options true)
                u st Scenario.b Hr Hm Hw Hinj Hb ltac:(discriminate))|].
    reflexivity.
  - reflexivity.
Defined.

(** X19.  In single mode, [select] of a candidate whose value and text can
    be read, followed by a run of the watcher, leaves exactly that item
    selected, whatever was selected before, with its value assigned to
    [selected], where it reads back as it is when it is a primitive or an
    object the ref does not wrap, and its text, converted as [join]
    converts it, in [selectedStr]. *)
Theorem select_then_flush_single h options u st x v t str :
  reachable h options u st → multiple u = false →
  is_candidate (items u) x = true →
  getValue h (itemValue u) x = Ok v → read_back_same h v = true →
  getText h (itemText u) x = Ok t → to_str h t = Ok str →
  ∃ st',
    flush h u (call u (SelectItem x) st) = Ok st'
    ∧ values (s st') = [x]
    ∧ selected st' = One v
    ∧ selectedStr st' = str
    ∧ watched st' = updated (s st').
Proof.
  intros Hr Hm Hc Hv _ Ht Hs.
  destruct (reachable_consistent _ _ _ _ Hr) as (_ & Hle & _).
  exists {| s := select u x (s st); selected := One v; selectedStr := str;
            watched := updated (select u x (s st)) |}.
  split;
    [|cbn [s selected selectedStr watched];
      rewrite select_single_result, Hc by assumption;
      repeat split; assumption || reflexivity].
  unfold flush. cbn [call s watched exec].
  replace (updated (select u x (s st)) =? watched st) with false.
  - unfold recompute. cbn [call s exec watched]. rewrite Hm.
    rewrite select_single_result, Hc by assumption. cbn [values nth mapM].
    rewrite Hv, Ht. unfold join. cbn [mapM mbind result_bind mret result_ret].
    rewrite Hs. cbn. now destruct str.
  - symmetry. apply Z.eqb_neq.
    rewrite select_single_result, Hc by assumption. simpl. lia.
Qed.

Lemma select_then_flush_single_witness :
  let u := Scenario.controller false in
  let st := call u (SelectItem Scenario.a) (Scenario.initial false) in
  reachable Scenario.store (Scenario.options false) u st
  ∧ ∃ st', flush Scenario.store u (call u (SelectItem Scenario.b) st) = Ok st'
           ∧ values (s st') = [Scenario.b]
           ∧ selected st' = One (VNum (Int 2))
           ∧ selectedStr st' = "b"%string.
Proof.
  intros u st.
  assert (Hr : reachable Scenario.store (Scenario.options false) u st)
    by apply reach_call, reach_init, scenario_built.
  split; [exact Hr|].
  destruct (select_then_flush_single Scenario.store (Scenario.options false) u st
              Scenario.b (VNum (Int 2)) (VStr "b") "b"
              Hr eq_refl eq_refl eq_refl eq_refl eq_refl eq_refl)
    as (st' & Hf & Hvs & Hsel & Hstr & _).
  exists st'. repeat split; assumption.
Defined.

(** ** The model value and the slot *)

Lemma setItems_nil u st :
  setItems u [] st
  = match values st with
    | [] => st
    | _ => {| values := []; updated := updated st + 1 |}
    end.
Proof.
  unfold setItems, UseSet.equals, JsSet.size.
  destruct (values st) as [|x vs] eqn:E; simpl; reflexivity.
Qed.

(** X20.  The model watcher skips a model value that is [undefined], [null],
    the number 0 or the empty string, also when 0 or the empty string is
    the value of a candidate; the selection stays as it is.  An empty array
    is passed on and clears a selection that is not empty, with one bump of
    the counter. *)
Theorem model_value_policy u st :
  onModelValue u (One VUndefined) st = st
  ∧ onModelValue u (One VNull) st = st
  ∧ onModelValue u (One (VNum (Int 0))) st = st
  ∧ onModelValue u (One (VStr EmptyString)) st = st
  ∧ onModelValue u (Many []) st
    = match values st with
      | [] => st
      | _ => {| values := []; updated := updated st + 1 |}
      end.
Proof.
  split; [reflexivity|]. split; [reflexivity|]. split; [reflexivity|].
  split; [reflexivity|].
  unfold onModelValue, setValues. simpl. apply setItems_nil.
Qed.

Lemma useSelect_config h options u st :
  useSelect h options = Ok (u, st) →
  items u = o_items options
  ∧ multiple u = default false (o_multiple options)
  ∧ cols u = default 1 (o_cols options)
  ∧ itemText u = default (Field "text") (o_itemText options)
  ∧ itemValue u = default (Field "value") (o_itemValue options).
Proof.
  unfold useSelect, useSelect_with. intros H.
  apply bind_Ok in H as (m & _ & H). apply bind_Ok in H as (rows & _ & H).
  injection H as <- _. simpl. auto.
Qed.

Lemma reachable_built h options u st :
  reachable h options u st → ∃ st0, useSelect h options = Ok (u, st0).
Proof. induction 1; eauto. Qed.

(** X21.  [setupSelect] in multiple mode with a truthy model value whose
    values resolve to distinct items starts with exactly those items
    selected, in the order of the model value; the counter stands at zero
    if there are none and at one more than their number otherwise, and the
    derived views are still the initial ones until the watcher runs. *)
Theorem setupSelect_initial_selection h options mv u st :
  setupSelect h options mv = Ok (u, st) →
  multiple u = true → truthy_model mv = true → NoDup (resolve u mv) →
  values (s st) = resolve u mv
  ∧ updated (s st) = match resolve u mv with
                     | [] => 0
                     | its => 1 + Z.of_nat (length its)
                     end
  ∧ selected st = Many [] ∧ watched st = 0.
Proof.
  unfold setupSelect. intros H Hm Ht Hnd.
  apply bind_Ok in H as ([u0 st0] & Hb & H). simpl in H.
  injection H as -> <-. cbn [s selected watched].
  apply useSelect_inv in Hb as [Hidx ->]. cbn [s selected watched].
  rewrite Hm.
  assert (Hf : List.filter (is_candidate (items u)) (resolve u mv) = resolve u mv).
  { apply filter_all_true. intros y Hy.
    now apply (resolve_candidates h u mv y Hidx). }
  assert (Hset : onModelValue u mv UseSet.init
                 = match resolve u mv with
                   | [] => UseSet.init
                   | its => {| values := its;
                               updated := 1 + Z.of_nat (length its) |}
                   end).
  { unfold onModelValue, setValues. rewrite Ht.
    destruct (resolve u mv) as [|x its] eqn:E; [reflexivity|].
    rewrite setItems_multiple_changed by (assumption || reflexivity).
    rewrite Hf. reflexivity. }
  rewrite Hset.
  split; [|split; [|split; reflexivity]]; now destruct (resolve u mv).
Qed.

Lemma setupSelect_initial_selection_witness :
  let mv := Many [VNum (Int 2); VNum (Int 99); VNum (Int 1)] in
  let u := Scenario.controller true in
  let st := {| s := {| values := [Scenario.b; Scenario.a]; updated := 3 |};
               selected := Many []; selectedStr := EmptyString; watched := 0 |} in
  setupSelect Scenario.store (Scenario.options true) mv = Ok (u, st)
  ∧ NoDup (resolve u mv)
  ∧ values (s st) = resolve u mv.
Proof.
  intros mv u st.
  assert (H : setupSelect Scenario.store (Scenario.options true) mv = Ok (u, st))
    by reflexivity.
  assert (Hnd : NoDup (resolve u mv)).
  { apply NoDup_ListNoDup. repeat constructor; simpl; intuition discriminate. }
  split; [exact H|]. split; [exact Hnd|].
  exact (proj1 (setupSelect_initial_selection Scenario.store (Scenario.options true)
                  mv u st H eq_refl eq_refl Hnd)).
Defined.

(** X22.  In [RenderlessSelect] with multiple selection, once the watcher is
    up to date the slot is told [clearable] exactly when the [clearable]
    prop is set and at least one item is selected. *)
Theorem slot_clearable_multiple h p u st :
  reachable h (props_options p) u st → p_multiple p = true →
  watched st = updated (s st) →
  sp_clearable (slotProps p u st) = true
  ↔ p_clearable p = true ∧ values (s st) ≠ [].
Proof.
  intros Hr Hp Hw.
  destruct (reachable_built _ _ _ _ Hr) as [st0 Hb].
  apply useSelect_config in Hb as (_ & Hm & _). simpl in Hm. rewrite Hp in Hm.
  destruct (reachable_consistent _ _ _ _ Hr) as (_ & _ & _ & Hsync).
  destruct (Hsync Hm Hw) as (vs & Hvs & Hsel).
  pose proof (isEmpty_multiple u st vs Hm Hsel) as He.
  apply mapM_Ok, Forall2_length in Hvs.
  simpl. rewrite andb_true_iff, negb_true_iff.
  assert (Hiff : isEmpty u st = false ↔ values (s st) ≠ []).
  { assert (Hnil : vs = [] ↔ values (s st) = []).
    { destruct vs, (values (s st)); simpl in Hvs; split; congruence. }
    destruct (isEmpty u st); split; intros H; try congruence.
    - exfalso. apply H, Hnil, He. reflexivity.
    - intros Hv. apply Hnil, He in Hv. discriminate. }
  tauto.
Qed.

Lemma slot_clearable_multiple_witness :
  let p := {| p_modelValue := One VUndefined; p_selection := None;
              p_clearable := true; p_items := [Scenario.a; Scenario.b];
              p_multiple := true; p_cols := 1; p_itemText := Field "text";
              p_itemValue := Field "value"; p_disabled := false |} in
  let u := Scenario.controller true in
  let st := {| s := {| values := [Scenario.a]; updated := 1 |};
               selected := Many [VNum (Int 1)]; selectedStr := "a";
               watched := 1 |} in
  reachable Scenario.store (props_options p) u st
  ∧ p_multiple p = true ∧ watched st = updated (s st)
  ∧ sp_clearable (slotProps p u st) = true.
Proof.
  intros p u st.
  assert (Hr : reachable Scenario.store (props_options p) u st).
  { apply (reach_flush _ _ _ (call u (SelectItem Scenario.a) (Scenario.initial true))).
    - apply reach_call, reach_init. reflexivity.
    - reflexivity. }
  assert (Hm : p_multiple p = true) by reflexivity.
  assert (Hw : watched st = updated (s st)) by reflexivity.
  split; [exact Hr|]. split; [exact Hm|]. split; [exact Hw|].
  apply (slot_clearable_multiple Scenario.store p u st Hr Hm Hw).
  split; [reflexivity | discriminate].
Defined.

(** X23.  [remove(x)] leaves [x] unselected and every other item as it was,
    and a second [remove(x)] right after it changes nothing, the counter
    included. *)
Theorem remove_idempotent x st :
  (∀ y, y ∈ values (UseSet.remove x st) ↔ y ∈ values st ∧ y ≠ x)
  ∧ UseSet.remove x (UseSet.remove x st) = UseSet.remove x st.
Proof.
  assert (Hv : values (UseSet.remove x st) = (JsSet.delete (values st) x).1).
  { unfold UseSet.remove, JsSet.delete.
    now destruct (JsSet.has (values st) x). }
  assert (Hm : ∀ y, y ∈ values (UseSet.remove x st) ↔ y ∈ values st ∧ y ≠ x).
  { intros y. rewrite Hv. apply delete_elem. }
  split; [exact Hm|]. apply remove_absent, has_not_elem.
  intros [_ Hne]%Hm. congruence.
Qed.
